(** * playlist_manager: the import script of [main.py], embedded and verified

    The script reads two CSV exports, merges them, resolves the playlists
    they name on the remote account and adds every track the catalog search
    finds.  Each Python function of [main.py] is a definition of the same
    name below.  Dictionaries are [gmap]s, the pandas frame is the list of
    its rows, and every remote call is a state-passing step that is recorded
    in a log. *)

From stdpp Require Import gmap strings list fin_maps pretty.
From Stdlib Require Import ZArith Ascii.

Local Open Scope string_scope.
Local Open Scope list_scope.
Set Warnings "-clear-no-such-hyp".

(** ** Python text operations

    [str.lower] and [str.strip] are library functions on Unicode text.  The
    engine is verified for any implementation of them; the only law it needs
    is that stripping the empty text gives the empty text. *)

Class PyStr := {
  lower : string → string;
  strip : string → string;
  strip_empty : strip "" = ""
}.

(** The ASCII instance: what [lower] and [strip] do on ASCII text. *)
Module Ascii7.

Definition is_space (c : ascii) : bool :=
  let n := nat_of_ascii c in
  (* \t \n \v \f \r, the separators 0x1c-0x1f, and the space *)
  (((9 <=? n) && (n <=? 13)) || ((28 <=? n) && (n <=? 32)))%nat.

Definition lower_char (c : ascii) : ascii :=
  let n := nat_of_ascii c in
  if ((65 <=? n) && (n <=? 90))%nat then ascii_of_nat (n + 32)%nat else c.

Fixpoint lower (s : string) : string :=
  match s with
  | EmptyString => EmptyString
  | String c s' => String (lower_char c) (lower s')
  end.

Fixpoint lstrip (s : string) : string :=
  match s with
  | EmptyString => EmptyString
  | String c s' => if is_space c then lstrip s' else s
  end.

(** [rstrip] drops the trailing run of spaces: a space is kept only when
    something that is kept follows it. *)
Fixpoint rstrip (s : string) : string :=
  match s with
  | EmptyString => EmptyString
  | String c s' =>
      match rstrip s' with
      | EmptyString => if is_space c then EmptyString else String c EmptyString
      | rest => String c rest
      end
  end.

Definition strip (s : string) : string := rstrip (lstrip s).

End Ascii7.

#[export] Instance ascii_text : PyStr :=
  {| lower := Ascii7.lower; strip := Ascii7.strip; strip_empty := eq_refl |}.

(** ** Library loader *)

(** A row of the library frame.  The columns "Playlist name" and "Track name"
    hold text; [row_artist] is [None] when the frame has no "Artist name"
    column, which is when [row.get("Artist name", "")] takes its default.
    The script calls [.strip()] on all three, so its rows are rows of text:
    an empty cell, which pandas reads as a float, is no value of a field. *)
Record Row := {
  row_playlist : string;
  row_track : string;
  row_artist : option string
}.

(** [Series.duplicated(keep="first")]: the mask that is true at every value
    already seen further up. *)
Fixpoint duplicated_from (seen : gset string) (keys : list string) : list bool :=
  match keys with
  | [] => []
  | k :: ks => bool_decide (k ∈ seen) :: duplicated_from ({[k]} ∪ seen) ks
  end.

Definition duplicated (keys : list string) : list bool :=
  duplicated_from ∅ keys.

(** [df.drop_duplicates(subset=..., keep="first")] is [df[~df.duplicated(...)]]. *)
Definition drop_duplicates {A} (subset : A → string) (df : list A) : list A :=
  (filter (λ p, p.2 = false) (zip df (duplicated (subset <$> df)))).*1.

(** The rows a mask started at [seen] lets through. *)
Definition unmasked {A} (key : A → string) (seen : gset string) (l : list A) : list A :=
  (filter (λ p, p.2 = false) (zip l (duplicated_from seen (key <$> l)))).*1.

(** [Series.unique()]: the distinct values in order of first appearance. *)
Definition unique (values : list string) : list string :=
  drop_duplicates id values.

Definition TIDAL_CSV : string := "My TIDAL Library.csv".
Definition SPOTIFY_CSV : string := "My Spotify Library.csv".

(** [read_csv] is the reader over the files of the working directory; it
    gives [None] where [pd.read_csv] raises (file missing or malformed), and
    the exception is not caught. *)
Definition load_library (read_csv : string → option (list Row)) : option (list Row) :=
  tidal_df ← read_csv TIDAL_CSV;
  spotify_df ← read_csv SPOTIFY_CSV;
  let combined_df := drop_duplicates row_track (concat [tidal_df; spotify_df]) in
  Some combined_df.

(** The merge in the words of the specification: of the concatenated rows,
    those whose track name is the track name of no earlier row.
    [first_occurrence key rows (i, r)] says that no row above position [i]
    has the key of [r]. *)
Definition first_occurrence {A} (key : A → string) (rows : list A) (ir : nat * A) : Prop :=
  Forall (λ r', key r' ≠ key ir.2) (take ir.1 rows).

Definition spec_merge (first second : list Row) : list Row :=
  let rows := first ++ second in
  (filter (first_occurrence row_track rows) (imap pair rows)).*2.

(** ** Credential store *)

(** Python exceptions the embedded functions can raise. *)
Inductive exn := AttributeError | TypeError.

Inductive result (A : Type) :=
  | Ok (a : A)
  | Raise (e : exn).
Arguments Ok {A} a.
Arguments Raise {A} e.

(** JSON documents as [json.load] builds them (no floats: the script never
    writes one). An object keeps its fields in file order. *)
#[warnings="-register-all"]
Inductive json :=
  | JNull
  | JBool (b : bool)
  | JInt (n : Z)
  | JStr (s : string)
  | JArr (items : list json)
  | JObj (fields : list (string * json)).

(** [d[key]] on a loaded document that is an object. *)
Fixpoint assoc (key : string) (fields : list (string * json)) : option json :=
  match fields with
  | [] => None
  | (k, v) :: rest => if String.eqb k key then Some v else assoc key rest
  end.

Definition json_get (key : string) (doc : json) : option json :=
  match doc with
  | JObj fields => assoc key fields
  | _ => None
  end.

Definition is_substring (needle hay : string) : bool :=
  match String.index 0 needle hay with
  | Some _ => true
  | None => false
  end.

(** [key in doc]: a key of an object, an item of an array, a substring of a
    string; [TypeError] on documents that are not containers. *)
Definition py_in (key : string) (doc : json) : result bool :=
  match doc with
  | JObj fields => Ok (bool_decide (key ∈ fields.*1))
  | JArr items =>
      Ok (existsb (λ v, match v with JStr s => String.eqb s key | _ => false end) items)
  | JStr s => Ok (is_substring key s)
  | JNull | JBool _ | JInt _ => Raise TypeError
  end.

Definition TOKEN_FILE : string := "tidal_token.json".
Definition NOT_FOUND_FILE : string := "not_found_tracks.csv".

Definition json_of_text (o : option string) : json :=
  match o with
  | Some s => JStr s
  | None => JNull
  end.

Section CredentialStore.
(** [datetime] is the type of [session.expiry_time]; [epoch_seconds dt] is
    [int(dt.timestamp())]. [json_dumps] and [json_loads] are the codec of
    the [json] module, [json_loads] giving [None] on [JSONDecodeError]. *)
Context {datetime : Type} (epoch_seconds : datetime → Z).
Context (json_dumps : json → string) (json_loads : string → option json).

(** The four attributes of a session that [save_token] reads; each is
    [None] until a login has set it. *)
Record Session := {
  token_type : option string;
  access_token : option string;
  refresh_token : option string;
  expiry_time : option datetime
}.

Definition token_data_of (session : Session) (expiry : datetime) : json :=
  JObj [ ("token_type", json_of_text (token_type session));
         ("access_token", json_of_text (access_token session));
         ("refresh_token", json_of_text (refresh_token session));
         ("expiry_time", JInt (epoch_seconds expiry)) ].

(** The files of the working directory, by name. *)
Definition save_token (session : Session) (files : gmap string string)
  : result (gmap string string) :=
  match expiry_time session with
  | None => Raise AttributeError
  | Some expiry =>
      let token_data := token_data_of session expiry in
      Ok (<[TOKEN_FILE := json_dumps token_data]> files)
  end.

Definition load_token (files : gmap string string) : result (option json) :=
  match files !! TOKEN_FILE with
  | Some text =>
      if (0 <? String.length text)%nat then
        match json_loads text with
        | Some token_data =>
            match py_in "access_token" token_data with
            | Raise e => Raise e
            | Ok false => Ok None
            | Ok true =>
                match py_in "expiry_time" token_data with
                | Raise e => Raise e
                | Ok false => Ok None
                | Ok true => Ok (Some token_data)
                end
            end
        | None => Ok None
        end
      else Ok None
  | None => Ok None
  end.
End CredentialStore.

Arguments Session : clear implicits.

(** ** The remote service *)

Record Track := { tr_id : Z; tr_name : string; tr_artist : string }.

(** A playlist object: a handle on a remote playlist. *)
Record Playlist := { pl_id : nat; pl_name : string }.

(** The calls the script makes on the account, over the state [R] of the
    remote side. Listings and the search read the state; creating a playlist
    and adding to one change it. A search result is the dictionary from
    category to hits, or [None]. *)
Class Remote (R : Type) := {
  user_playlists : R → list Playlist;
  create_playlist : R → string → string → R * Playlist;
  playlist_tracks : R → Playlist → list Track;
  playlist_add : R → Playlist → list Z → R;
  search : R → string → option (gmap string (list Track))
}.

(** The status lines the script prints. *)
Inductive Message :=
  | PlaylistExists (name : string)
  | PlaylistCreated (name : string)
  | PlaylistNotFound (playlist_name : string)
  | Processing (playlist : string)
  | AlreadyIn (track playlist : string)
  | Added (track artist playlist : string)
  | TrackNotFound (track_name artist_name : string)
  | SavedMissing
  | AllAdded.

Inductive Event :=
  | CallPlaylists
  | CallCreate (name description : string)
  | CallTracks (playlist : Playlist)
  | CallSearch (query : string)
  | CallAdd (playlist : Playlist) (track_ids : list Z)
  | Printed (m : Message).

(** The remote state together with everything done so far, in order. *)
Record World (R : Type) := { remote : R; log : list Event }.
Arguments remote {R} w.
Arguments log {R} w.

Definition emit {R} (e : Event) (w : World R) : World R :=
  {| remote := remote w; log := log w ++ [e] |}.

(** A dictionary comprehension: built left to right, a later item replaces an
    earlier one with the same key. *)
Definition py_dict {V} (items : list (string * V)) : gmap string V :=
  foldl (λ d kv, <[kv.1 := kv.2]> d) ∅ items.

(** An entry of the report of tracks that were not placed. *)
Record Unmatched := {
  nf_playlist : string;
  nf_track : string;
  nf_artist : string
}.

Definition searches (events : list Event) : list string :=
  omap (λ e, match e with CallSearch q => Some q | _ => None end) events.

Definition adds (events : list Event) : list (Playlist * list Z) :=
  omap (λ e, match e with CallAdd p ids => Some (p, ids) | _ => None end) events.

Definition fetches (events : list Event) : list Playlist :=
  omap (λ e, match e with CallTracks p => Some p | _ => None end) events.

Definition creations (events : list Event) : list string :=
  omap (λ e, match e with CallCreate name _ => Some name | _ => None end) events.

(** ** Playlist resolver and import engine *)

Section Engine.
Context `{PyStr} `{Remote R}.

Definition existing_playlists_of (r : R) : gmap string Playlist :=
  py_dict ((λ p, (lower (pl_name p), p)) <$> user_playlists r).

(** The body of the loop of [get_or_create_playlists]. *)
Definition resolve_name (existing_playlists : gmap string Playlist)
    (acc : World R * gmap string Playlist) (name : string)
  : World R * gmap string Playlist :=
  let '(w, playlists) := acc in
  let name_lower := lower name in
  match existing_playlists !! name_lower with
  | Some p =>
      (emit (Printed (PlaylistExists name)) w, <[name_lower := p]> playlists)
  | None =>
      let description := "Playlist created from CSV file" in
      let '(r, new_playlist) := create_playlist (remote w) name description in
      let w := {| remote := r; log := log w ++ [CallCreate name description] |} in
      (emit (Printed (PlaylistCreated name)) w, <[name_lower := new_playlist]> playlists)
  end.

Definition get_or_create_playlists (w : World R) (playlist_names : list string)
  : World R * gmap string Playlist :=
  let existing_playlists := existing_playlists_of (remote w) in
  let w := emit CallPlaylists w in
  foldl (resolve_name existing_playlists) (w, ∅) playlist_names.

(** The three stripped fields of a row. *)
Definition playlist_name_of (row : Row) : string := strip (row_playlist row).
Definition track_name_of (row : Row) : string := strip (row_track row).
Definition artist_name_of (row : Row) : string := strip (default "" (row_artist row)).

Definition unmatched_of (row : Row) : Unmatched :=
  {| nf_playlist := playlist_name_of row;
     nf_track := track_name_of row;
     nf_artist := artist_name_of row |}.

Definition search_query_of (row : Row) : string :=
  let track_name := track_name_of row in
  let artist_name := artist_name_of row in
  if bool_decide (artist_name ≠ "") then track_name +:+ " " +:+ artist_name
  else track_name.

Definition existing_tracks_of (r : R) (playlist : Playlist) : gmap string Z :=
  py_dict ((λ track, (lower (tr_name track), tr_id track)) <$> playlist_tracks r playlist).

(** [search_result and "tracks" in search_result and search_result["tracks"]],
    and then [search_result["tracks"][0]]. *)
Definition first_track (search_result : option (gmap string (list Track))) : option Track :=
  match search_result with
  | Some d =>
      if bool_decide (d ≠ ∅) then
        match d !! "tracks" with
        | Some (track :: _) => Some track
        | _ => None
        end
      else None
  | None => None
  end.

(** The body of the loop of [add_songs_to_playlists]; the second component
    of the state is [not_found_tracks]. *)
Definition process_row (playlists : gmap string Playlist)
    (st : World R * list Unmatched) (row : Row) : World R * list Unmatched :=
  let '(w, not_found_tracks) := st in
  let playlist_name := playlist_name_of row in
  let track_name := track_name_of row in
  let artist_name := artist_name_of row in
  match playlists !! lower playlist_name with
  | None =>
      (emit (Printed (PlaylistNotFound playlist_name)) w,
       not_found_tracks ++ [unmatched_of row])
  | Some playlist =>
      let w := emit (Printed (Processing (pl_name playlist))) w in
      let existing_tracks := existing_tracks_of (remote w) playlist in
      let w := emit (CallTracks playlist) w in
      let search_query := search_query_of row in
      let search_result := search (remote w) search_query in
      let w := emit (CallSearch search_query) w in
      match first_track search_result with
      | Some track =>
          let track_id := tr_id track in
          if bool_decide (is_Some (existing_tracks !! lower (tr_name track))) then
            (emit (Printed (AlreadyIn (tr_name track) (pl_name playlist))) w,
             not_found_tracks)
          else
            let w := {| remote := playlist_add (remote w) playlist [track_id];
                        log := log w ++ [CallAdd playlist [track_id]] |} in
            (emit (Printed (Added (tr_name track) (tr_artist track) (pl_name playlist))) w,
             not_found_tracks)
      | None =>
          (emit (Printed (TrackNotFound track_name artist_name)) w,
           not_found_tracks ++ [unmatched_of row])
      end
  end.

Definition run_rows (playlists : gmap string Playlist)
    (st : World R * list Unmatched) (rows : list Row) : World R * list Unmatched :=
  foldl (process_row playlists) st rows.

(** The second component of the result is the frame written to
    [NOT_FOUND_FILE], when one is written. *)
Definition add_songs_to_playlists (w : World R) (song_data : list Row)
  : World R * option (list Unmatched) :=
  let '(w, playlists) :=
    get_or_create_playlists w (unique (row_playlist <$> song_data)) in
  let '(w, not_found_tracks) := run_rows playlists (w, []) song_data in
  match not_found_tracks with
  | _ :: _ => (emit (Printed SavedMissing) w, Some not_found_tracks)
  | [] => (emit (Printed AllAdded) w, None)
  end.

(** The mapping a run over [song_data] resolves, and the state of the
    loop once the rows [done] have been processed. *)
Definition resolved_playlists (w : World R) (song_data : list Row)
  : gmap string Playlist :=
  (get_or_create_playlists w (unique (row_playlist <$> song_data))).2.

Definition state_after (w : World R) (song_data done : list Row)
  : World R * list Unmatched :=
  run_rows (resolved_playlists w song_data)
    ((get_or_create_playlists w (unique (row_playlist <$> song_data))).1, []) done.

(** The lowercased names of the tracks a playlist lists. *)
Definition listed_names (r : R) (playlist : Playlist) : list string :=
  (λ track, lower (tr_name track)) <$> playlist_tracks r playlist.

(** A search result without a "tracks" category, or with an empty one. *)
Definition lacks_tracks (search_result : option (gmap string (list Track))) : Prop :=
  ∀ d, search_result = Some d → d !! "tracks" = None ∨ d !! "tracks" = Some [].

(** *** The engine of the specification, step 3

    The track list of a playlist is fetched on first use only and kept,
    by the key of the playlist in the mapping, for the rest of the run. *)
Definition spec_process_row (playlists : gmap string Playlist)
    (st : World R * gmap string (gmap string Z) * list Unmatched) (row : Row)
  : World R * gmap string (gmap string Z) * list Unmatched :=
  let '(w, fetched, not_found_tracks) := st in
  let key := lower (playlist_name_of row) in
  match playlists !! key with
  | None =>
      (emit (Printed (PlaylistNotFound (playlist_name_of row))) w, fetched,
       not_found_tracks ++ [unmatched_of row])
  | Some playlist =>
      let w := emit (Printed (Processing (pl_name playlist))) w in
      let '(w, existing_tracks) :=
        match fetched !! key with
        | Some names => (w, names)
        | None => (emit (CallTracks playlist) w, existing_tracks_of (remote w) playlist)
        end in
      let fetched := <[key := existing_tracks]> fetched in
      let search_query := search_query_of row in
      let search_result := search (remote w) search_query in
      let w := emit (CallSearch search_query) w in
      match first_track search_result with
      | Some track =>
          if bool_decide (is_Some (existing_tracks !! lower (tr_name track))) then
            (emit (Printed (AlreadyIn (tr_name track) (pl_name playlist))) w, fetched,
             not_found_tracks)
          else
            let w := {| remote := playlist_add (remote w) playlist [tr_id track];
                        log := log w ++ [CallAdd playlist [tr_id track]] |} in
            (emit (Printed (Added (tr_name track) (tr_artist track) (pl_name playlist))) w,
             fetched, not_found_tracks)
      | None =>
          (emit (Printed (TrackNotFound (track_name_of row) (artist_name_of row))) w,
           fetched, not_found_tracks ++ [unmatched_of row])
      end
  end.

Definition spec_add_songs_to_playlists (w : World R) (song_data : list Row)
  : World R * option (list Unmatched) :=
  let '(w, playlists) :=
    get_or_create_playlists w (unique (row_playlist <$> song_data)) in
  let '(w, _, not_found_tracks) :=
    foldl (spec_process_row playlists) (w, ∅, []) song_data in
  match not_found_tracks with
  | _ :: _ => (emit (Printed SavedMissing) w, Some not_found_tracks)
  | [] => (emit (Printed AllAdded) w, None)
  end.
End Engine.

(** ** A test double of the remote account

    The catalog is fixed; an account is the list of its playlist names (a
    playlist's id is its position) and the members of each playlist.  Adding
    ids to a playlist appends the catalog tracks that have these ids, and the
    listing of a playlist shows them from then on. *)
Module Demo.

Definition catalog : list Track :=
  [ {| tr_id := 42; tr_name := "Yellow"; tr_artist := "Coldplay" |};
    {| tr_id := 7; tr_name := "Clocks"; tr_artist := "Coldplay" |};
    {| tr_id := 19; tr_name := "Karma Police"; tr_artist := "Radiohead" |} ].

Record Account := {
  acc_names : list string;
  acc_members : gmap nat (list Track)
}.

Definition find_track (id : Z) : option Track :=
  List.find (λ t, bool_decide (tr_id t = id)) catalog.

(** A track is a hit when the query starts with its name, whatever the case. *)
Definition hit (query : string) (t : Track) : bool :=
  String.prefix (Ascii7.lower (tr_name t)) (Ascii7.lower query).

Definition members_of (a : Account) (p : Playlist) : list Track :=
  default [] (acc_members a !! pl_id p).

#[global] Instance account_remote : Remote Account := {|
  user_playlists a := imap (λ i name, {| pl_id := i; pl_name := name |}) (acc_names a);
  create_playlist a name _ :=
    ({| acc_names := acc_names a ++ [name]; acc_members := acc_members a |},
     {| pl_id := length (acc_names a); pl_name := name |});
  playlist_tracks := members_of;
  playlist_add a p ids :=
    {| acc_names := acc_names a;
       acc_members := <[pl_id p := members_of a p ++ omap find_track ids]> (acc_members a) |};
  search a query := Some {[ "tracks" := List.filter (hit query) catalog ]}
|}.

(** An account with the given playlists, all empty, and nothing done yet. *)
Definition start (names : list string) : World Account :=
  {| remote := {| acc_names := names; acc_members := ∅ |}; log := [] |}.

Definition row (playlist track artist : string) : Row :=
  {| row_playlist := playlist; row_track := track; row_artist := Some artist |}.

Definition yellow : Track := {| tr_id := 42; tr_name := "Yellow"; tr_artist := "Coldplay" |}.
Definition road_trip : Playlist := {| pl_id := 0; pl_name := "Road Trip" |}.

(** Two records for one playlist whose searches find the same track. *)
Definition yellow_twice : list Row :=
  [ row "Road Trip" "Yellow" "Coldplay"; row "Road Trip" "yellow" "coldplay" ].

(** A padded playlist name, alone and next to the same name unpadded. *)
Definition padded_alone : list Row := [ row "Gym " "Yellow" "Coldplay" ].
Definition padded_and_plain : list Row :=
  [ row "Gym " "Yellow" "Coldplay"; row "Gym" "Clocks" "Coldplay" ].

(** A track the catalog does not have. *)
Definition ghost_song : list Row := [ row "Gym" "Ghost Song" "" ].

(** A frame without an "Artist name" column. *)
Definition no_artist_column : list Row :=
  [ {| row_playlist := "Gym"; row_track := " Clocks "; row_artist := None |};
    {| row_playlist := "Gym"; row_track := "Ghost Song"; row_artist := None |} ].

(** The two exports of the library. *)
Definition tidal_rows : list Row :=
  [ row "Road Trip" "Yellow" "Coldplay"; row "Gym" "Clocks" "Coldplay" ].
Definition spotify_rows : list Row :=
  [ row "Chill" "Yellow" "coldplay"; row "Chill" "Karma Police" "Radiohead" ].
Definition read_csv (name : string) : option (list Row) :=
  if String.eqb name TIDAL_CSV then Some tidal_rows
  else if String.eqb name SPOTIFY_CSV then Some spotify_rows
  else None.

(** A session after a login; its expiry time is in microseconds since the
    epoch, of which [epoch_seconds] keeps the whole seconds. *)
Definition epoch_seconds (microseconds : Z) : Z := Z.quot microseconds 1000000.
Definition session : Session Z :=
  {| token_type := Some "Bearer";
     access_token := Some "eyJhbGciOiJIUzI1NiJ9.c2Vzc2lvbg";
     refresh_token := Some "rt-6a1f";
     expiry_time := Some 1700000000123456%Z |}.

End Demo.

(** ** A codec for the token file

    A printer in the layout of [json.dump] and a reader of what it prints,
    for documents whose strings need no escape beyond the quote and the
    backslash. *)
Module FlatJson.

Definition dquote : ascii := ascii_of_nat 34.
Definition backslash : ascii := ascii_of_nat 92.

Definition quote (s : string) : string :=
  let fix body (s : string) : string :=
    match s with
    | EmptyString => EmptyString
    | String c s' =>
        if bool_decide (c = dquote) || bool_decide (c = backslash)
        then String backslash (String c (body s'))
        else String c (body s')
    end in
  String dquote (body s +:+ String dquote EmptyString).

Definition join (sep : string) (parts : list string) : string :=
  match parts with
  | [] => EmptyString
  | p :: ps => foldl (λ acc q, acc +:+ sep +:+ q) p ps
  end.

Fixpoint dumps (v : json) : string :=
  match v with
  | JNull => "null"
  | JBool true => "true"
  | JBool false => "false"
  | JInt n => pretty n
  | JStr s => quote s
  | JArr items => "[" +:+ join ", " (map dumps items) +:+ "]"
  | JObj fields =>
      "{" +:+ join ", " (map (λ kv, quote kv.1 +:+ ": " +:+ dumps kv.2) fields) +:+ "}"
  end.

Fixpoint skip_ws (s : string) : string :=
  match s with
  | String c s' => if Ascii7.is_space c then skip_ws s' else s
  | EmptyString => EmptyString
  end.

Definition expect (word : string) (s : string) : option string :=
  if String.prefix word s
  then Some (String.substring (String.length word) (String.length s - String.length word) s)
  else None.

(** The text of a string literal, after its opening quote. *)
Fixpoint read_string (s : string) : option (string * string) :=
  match s with
  | EmptyString => None
  | String c s' =>
      if bool_decide (c = dquote) then Some (EmptyString, s')
      else if bool_decide (c = backslash) then
        match s' with
        | String e s'' =>
            if bool_decide (e = dquote) || bool_decide (e = backslash) then
              '(body, rest) ← read_string s''; Some (String e body, rest)
            else None
        | EmptyString => None
        end
      else '(body, rest) ← read_string s'; Some (String c body, rest)
  end.

Definition digit (c : ascii) : option Z :=
  let n := nat_of_ascii c in
  if ((48 <=? n) && (n <=? 57))%nat then Some (Z.of_nat (n - 48)) else None.

Fixpoint read_digits (acc : Z) (s : string) : Z * string :=
  match s with
  | String c s' =>
      match digit c with
      | Some d => read_digits (10 * acc + d) s'
      | None => (acc, s)
      end
  | EmptyString => (acc, s)
  end.

Definition read_int (s : string) : option (Z * string) :=
  match s with
  | String "-"%char (String c _ as s') =>
      if digit c is Some _
      then let '(n, rest) := read_digits 0 s' in Some (- n, rest)%Z else None
  | String c _ => if digit c is Some _ then Some (read_digits 0 s) else None
  | EmptyString => None
  end.

(** Items up to the closing character, separated by commas. *)
Fixpoint read_items {A} (item : string → option (A * string)) (close : ascii)
    (fuel : nat) (s : string) : option (list A * string) :=
  match fuel with
  | O => None
  | S fuel =>
      '(x, rest) ← item (skip_ws s);
      match skip_ws rest with
      | String c rest' =>
          if bool_decide (c = close) then Some ([x], rest')
          else if bool_decide (c = ","%char) then
            '(xs, rest'') ← read_items item close fuel rest'; Some (x :: xs, rest'')
          else None
      | EmptyString => None
      end
  end.

Definition read_seq {A} (item : string → option (A * string)) (close : ascii)
    (fuel : nat) (s : string) : option (list A * string) :=
  match skip_ws s with
  | String c rest as s' =>
      if bool_decide (c = close) then Some ([], rest) else read_items item close fuel s'
  | EmptyString => None
  end.

Fixpoint read_value (fuel : nat) (s : string) : option (json * string) :=
  match fuel with
  | O => None
  | S fuel =>
      match skip_ws s with
      | String c rest as s' =>
          if bool_decide (c = dquote) then
            '(body, rest') ← read_string rest; Some (JStr body, rest')
          else if bool_decide (c = "["%char) then
            '(items, rest') ← read_seq (read_value fuel) "]"%char (String.length rest) rest;
            Some (JArr items, rest')
          else if bool_decide (c = "{"%char) then
            let field (s : string) : option (string * json * string) :=
              match s with
              | String q s1 =>
                  if bool_decide (q = dquote) then
                    '(key, s2) ← read_string s1;
                    s3 ← expect ":" (skip_ws s2);
                    '(v, s4) ← read_value fuel s3;
                    Some (key, v, s4)
                  else None
              | EmptyString => None
              end in
            '(fields, rest') ← read_seq field "}"%char (String.length rest) rest;
            Some (JObj fields, rest')
          else
            match expect "null" s', expect "true" s', expect "false" s' with
            | Some rest', _, _ => Some (JNull, rest')
            | _, Some rest', _ => Some (JBool true, rest')
            | _, _, Some rest' => Some (JBool false, rest')
            | _, _, _ => '(n, rest') ← read_int s'; Some (JInt n, rest')
            end
      | EmptyString => None
      end
  end.

(** A document is one value and nothing but spaces after it. *)
Definition loads (text : string) : option json :=
  '(v, rest) ← read_value (S (String.length text)) text;
  match skip_ws rest with
  | EmptyString => Some v
  | _ => None
  end.

End FlatJson.

(** ** Session authenticator and the script *)

(** The truth value of a loaded document, as [if token_data:] takes it. *)
Definition py_truthy (doc : json) : bool :=
  match doc with
  | JNull => false
  | JBool b => b
  | JInt n => negb (n =? 0)%Z
  | JStr s => negb (String.eqb s "")
  | JArr items => match items with [] => false | _ => true end
  | JObj fields => match fields with [] => false | _ => true end
  end.

(** [int(v)] on a value of a loaded document; [None] where it raises.
    [int_of_text] is [int] on a string. *)
Definition py_int (int_of_text : string → option Z) (v : json) : option Z :=
  match v with
  | JInt n => Some n
  | JBool b => Some (if b then 1 else 0)%Z
  | JStr s => int_of_text s
  | JNull | JArr _ | JObj _ => None
  end.

(** The session object of the client library, over its state [Sess]:
    [tidalapi.Session()], [load_oauth_session] (with whether it raised),
    [check_login], [login_oauth_simple] ([None] where it raises) and the
    four token attributes. *)
Class Login (Sess datetime : Type) := {
  new_session : Sess;
  load_oauth_session : Sess → json → json → json → Z → Sess * bool;
  check_login : Sess → bool;
  login_oauth_simple : Sess → option Sess;
  tokens_of : Sess → Session datetime
}.

(** How a function that touches the files ends: it returns, or an exception
    leaves it; either way the files are as it left them. *)
Inductive crash :=
  | Uncaught (e : exn)
  | LoginRaised
  | ReadRaised.

Inductive outcome (A : Type) :=
  | Returns (a : A) (files : gmap string string)
  | Crashes (why : crash) (files : gmap string string).
Arguments Returns {A} a files.
Arguments Crashes {A} why files.

Definition files_of {A} (o : outcome A) : gmap string string :=
  match o with
  | Returns _ files => files
  | Crashes _ files => files
  end.

(** [pd.read_csv(name)] over the files: [None] where it raises, for a file
    that is missing or that [parse_csv] refuses. *)
Definition read_csv_of (parse_csv : string → option (list Row))
    (files : gmap string string) (name : string) : option (list Row) :=
  files !! name ≫= parse_csv.

Definition listings (events : list Event) : list unit :=
  omap (λ e, match e with CallPlaylists => Some () | _ => None end) events.

Definition skips (events : list Event) : list (string * string) :=
  omap (λ e, match e with
             | Printed (AlreadyIn track playlist) => Some (track, playlist)
             | _ => None
             end) events.

Section Script.
Context `{PyStr} `{Remote R} {Sess datetime : Type} `{!Login Sess datetime}.
Context (epoch_seconds : datetime → Z).
Context (json_dumps : json → string) (json_loads : string → option json).
Context (int_of_text : string → option Z).
Context (parse_csv : string → option (list Row)) (to_csv : list Unmatched → string).

(** The [try] block of [authenticate]: the session after it, and whether
    the function returns it. A subscript that fails, an [int] that fails and
    a restoration that raises are all caught by [except Exception]. The
    documents [json.load] builds have no repeated key. *)
Definition try_stored (session : Sess) (token_data : json) : Sess * bool :=
  match json_get "token_type" token_data, json_get "access_token" token_data,
        json_get "refresh_token" token_data, json_get "expiry_time" token_data with
  | Some kind, Some access, Some refresh, Some expiry =>
      match py_int int_of_text expiry with
      | Some expiry =>
          let '(session, raised) := load_oauth_session session kind access refresh expiry in
          if raised then (session, false) else (session, check_login session)
      | None => (session, false)
      end
  | _, _, _, _ => (session, false)
  end.

Definition authenticate (files : gmap string string) : outcome Sess :=
  let session := new_session in
  match load_token json_loads files with
  | Raise e => Crashes (Uncaught e) files
  | Ok token_data =>
      let '(session, logged_in) :=
        match token_data with
        | Some token_data =>
            if py_truthy token_data then try_stored session token_data
            else (session, false)
        | None => (session, false)
        end in
      if logged_in then Returns session files
      else
        let files :=
          if bool_decide (is_Some (files !! TOKEN_FILE)) then delete TOKEN_FILE files
          else files in
        match login_oauth_simple session with
        | None => Crashes LoginRaised files
        | Some session =>
            match save_token epoch_seconds json_dumps (tokens_of session) files with
            | Ok files => Returns session files
            | Raise e => Crashes (Uncaught e) files
            end
        end
  end.

(** The script: the world it leaves on the remote side, and how it ends, with
    the report it has written, if any. The frame of unmatched records that
    [add_songs_to_playlists] hands over is written here, to [NOT_FOUND_FILE],
    as [to_csv] prints it; [session.user] is read and used for the calls on
    the account only. *)
Definition main (files : gmap string string) (w : World R)
  : World R * outcome (option (list Unmatched)) :=
  match authenticate files with
  | Crashes why files => (w, Crashes why files)
  | Returns session files =>
      if check_login session then
        match load_library (read_csv_of parse_csv files) with
        | None => (w, Crashes ReadRaised files)
        | Some song_data =>
            let '(w, report) := add_songs_to_playlists w song_data in
            (w, Returns report
                  match report with
                  | Some entries => <[NOT_FOUND_FILE := to_csv entries]> files
                  | None => files
                  end)
        end
      else (w, Returns None files)
  end.

(** The remote state after a sequence of calls. *)
Definition replay (events : list Event) (r : R) : R :=
  foldl (λ r e, match e with
                | CallCreate name description => (create_playlist r name description).1
                | CallAdd playlist track_ids => playlist_add r playlist track_ids
                | _ => r
                end) r events.
End Script.

(** A session double: a stored token is restored as it is, and it is valid
    when its access token is the text "live" and it has not expired at
    [now]; a login sets fresh tokens. *)
Module DemoLogin.

Definition now : Z := 1700000000.

Record State := {
  kind : option string;
  access : option string;
  refresh : option string;
  expiry : option Z
}.

Definition text_of (v : json) : option string :=
  match v with
  | JStr s => Some s
  | _ => None
  end.

Definition fresh : State :=
  {| kind := Some "Bearer"; access := Some "live"; refresh := Some "rt-2";
     expiry := Some (now + 86400)%Z |}.

#[global] Instance login : Login State Z := {|
  new_session := {| kind := None; access := None; refresh := None; expiry := None |};
  load_oauth_session _ k a r e :=
    ({| kind := text_of k; access := text_of a; refresh := text_of r; expiry := Some e |},
     false);
  check_login s :=
    bool_decide (access s = Some "live")
    && match expiry s with Some e => (now <? e)%Z | None => false end;
  login_oauth_simple _ := Some fresh;
  tokens_of s :=
    {| token_type := kind s; access_token := access s;
       refresh_token := refresh s; expiry_time := expiry s |}
|}.

Definition int_of_text (s : string) : option Z :=
  match FlatJson.read_int s with
  | Some (n, EmptyString) => Some n
  | _ => None
  end.

(** A token file with a valid token, one with an expired token, and one that
    is no JSON. *)
Definition valid_files : gmap string string :=
  {[ TOKEN_FILE :=
       FlatJson.dumps (JObj [ ("token_type", JStr "Bearer"); ("access_token", JStr "live");
                              ("refresh_token", JStr "rt-1");
                              ("expiry_time", JInt 1700003600) ]) ]}.
Definition expired_files : gmap string string :=
  {[ TOKEN_FILE :=
       FlatJson.dumps (JObj [ ("token_type", JStr "Bearer"); ("access_token", JStr "live");
                              ("refresh_token", JStr "rt-0");
                              ("expiry_time", JInt 1600000000) ]) ]}.
Definition corrupt_files : gmap string string := {[ TOKEN_FILE := "{oops" ]}.
Definition number_files : gmap string string := {[ TOKEN_FILE := "5" ]}.

End DemoLogin.

(** Doubles for a run of the script: a reader and a writer of comma
    separated lines under a header line, and working directories. *)
Module DemoScript.

Definition nl : string := String (ascii_of_nat 10) EmptyString.

(** The pieces of a text between occurrences of a separator. *)
Fixpoint split_on (sep : ascii) (s : string) : list string :=
  match s with
  | EmptyString => [EmptyString]
  | String c s' =>
      if bool_decide (c = sep) then EmptyString :: split_on sep s'
      else match split_on sep s' with
           | piece :: pieces => String c piece :: pieces
           | [] => [String c EmptyString]
           end
  end.

Definition parse_line (line : string) : option Row :=
  match split_on ","%char line with
  | [playlist; track; artist] => Some (Demo.row playlist track artist)
  | _ => None
  end.

Definition parse_csv (text : string) : option (list Row) :=
  match split_on (ascii_of_nat 10) text with
  | header :: lines =>
      if String.eqb header "Playlist name,Track name,Artist name"
      then mapM parse_line (filter (λ line, line ≠ "") lines)
      else None
  | [] => None
  end.

Definition to_csv (entries : list Unmatched) : string :=
  foldl (λ text e,
           text +:+ nf_playlist e +:+ "," +:+ nf_track e +:+ "," +:+ nf_artist e +:+ nl)
    ("Playlist Name,Track Name,Artist Name" +:+ nl) entries.

Definition header : string := "Playlist name,Track name,Artist name" +:+ nl.

Definition tidal_text : string :=
  header +:+ "Road Trip,Yellow,Coldplay" +:+ nl +:+ "Gym,Clocks,Coldplay" +:+ nl.
Definition spotify_text : string :=
  header +:+ "Chill,Yellow,coldplay" +:+ nl +:+ "Gym,Ghost Song,Nobody" +:+ nl.
Definition spotify_all_found : string :=
  header +:+ "Chill,Karma Police,Radiohead" +:+ nl.

Definition valid_token : string :=
  FlatJson.dumps (JObj [ ("token_type", JStr "Bearer"); ("access_token", JStr "live");
                         ("refresh_token", JStr "rt-1");
                         ("expiry_time", JInt 1700003600) ]).

(** A token that has an access token and an expiry time, and nothing else. *)
Definition partial_files : gmap string string :=
  {[ TOKEN_FILE :=
       FlatJson.dumps (JObj [ ("access_token", JStr "live");
                              ("expiry_time", JInt 1700003600) ]) ]}.

(** A working directory with a valid token, both exports, a file of the
    user's and the report of an earlier run. *)
Definition directory : gmap string string :=
  <[TOKEN_FILE := valid_token]>
    (<[TIDAL_CSV := tidal_text]>
       (<[SPOTIFY_CSV := spotify_text]>
          (<[NOT_FOUND_FILE := "an old report"]> {[ "notes.txt" := "keep" ]}))).

(** The same with a second export all of whose tracks the catalog has. *)
Definition directory_all_found : gmap string string :=
  <[SPOTIFY_CSV := spotify_all_found]> directory.

(** The same without the second export. *)
Definition directory_without_spotify : gmap string string :=
  delete SPOTIFY_CSV directory.

(** The script over the doubles. *)
Definition run (files : gmap string string) (w : World Demo.Account)
  : World Demo.Account * outcome (option (list Unmatched)) :=
  main (Sess := DemoLogin.State) (λ seconds : Z, seconds) FlatJson.dumps FlatJson.loads
    DemoLogin.int_of_text parse_csv to_csv files w.

Definition login (files : gmap string string) : outcome DemoLogin.State :=
  authenticate (Sess := DemoLogin.State) (λ seconds : Z, seconds) FlatJson.dumps
    FlatJson.loads DemoLogin.int_of_text files.

End DemoScript.

(** * Verification *)

(** ** Dropping duplicates *)

Section Dedup.
Context {A : Type} (key : A → string).

Local Abbreviation masked := (unmasked key).

Lemma masked_cons seen x l :
  masked seen (x :: l)
  = if decide (key x ∈ seen) then masked ({[key x]} ∪ seen) l
    else x :: masked ({[key x]} ∪ seen) l.
Proof.
  unfold unmasked. cbn [fmap list_fmap duplicated_from zip zip_with].
  rewrite filter_cons. cbn [snd].
  destruct (decide (key x ∈ seen)) as [Hin|Hin].
  - rewrite bool_decide_eq_true_2 by done. by rewrite decide_False.
  - rewrite bool_decide_eq_false_2 by done. by rewrite decide_True.
Qed.

Lemma masked_from_first (pre l : list A) :
  masked (list_to_set (key <$> pre)) l
  = (filter (first_occurrence key (pre ++ l)) (imap (λ i, pair (length pre + i)) l)).*2.
Proof.
  revert pre. induction l as [|x l IHl]; intros pre; [done|].
  rewrite masked_cons, imap_cons, filter_cons.
  assert (Hfresh : first_occurrence key (pre ++ x :: l) (length pre + 0, x)
                   ↔ key x ∉ (list_to_set (key <$> pre) : gset string)).
  { unfold first_occurrence. cbn [fst snd]. rewrite Nat.add_0_r, take_app_length.
    rewrite elem_of_list_to_set, list_elem_of_fmap, Forall_forall.
    split.
    - intros Hall (r' & Heq & Hin). by apply (Hall r' Hin).
    - intros Hno r' Hin Heq. apply Hno. eauto. }
  assert (Hrest :
    masked ({[key x]} ∪ list_to_set (key <$> pre)) l
    = (filter (first_occurrence key (pre ++ x :: l))
         (imap ((λ i, pair (length pre + i)) ∘ S) l)).*2).
  { specialize (IHl (pre ++ [x])).
    rewrite fmap_app, list_to_set_app_L in IHl. cbn in IHl.
    rewrite (comm_L (∪) (list_to_set (key <$> pre)) _) in IHl.
    rewrite union_empty_r_L in IHl. rewrite IHl.
    rewrite <-(assoc_L (++) pre [x] l). cbn [app].
    f_equal. f_equal. apply imap_ext. intros i y _. cbn.
    rewrite length_app. cbn. f_equal. lia. }
  destruct (decide (key x ∈ (list_to_set (key <$> pre) : gset string))) as [Hin|Hin].
  - rewrite decide_False by (rewrite Hfresh; tauto). done.
  - rewrite decide_True by (by rewrite Hfresh).
    cbn. by rewrite Hrest.
Qed.

Lemma drop_duplicates_first (l : list A) :
  drop_duplicates key l = (filter (first_occurrence key l) (imap pair l)).*2.
Proof.
  exact (masked_from_first [] l).
Qed.

Lemma masked_keys seen l k :
  k ∈ key <$> masked seen l ↔ k ∈ key <$> l ∧ k ∉ seen.
Proof.
  revert seen. induction l as [|x l IHl]; intros seen.
  - cbn. rewrite elem_of_nil. tauto.
  - rewrite masked_cons. destruct (decide (key x ∈ seen)) as [Hin|Hin].
    + rewrite IHl, fmap_cons, elem_of_cons. set_solver.
    + rewrite !fmap_cons, !elem_of_cons, IHl.
      destruct (decide (k = key x)) as [->|Hne]; set_solver.
Qed.

Lemma masked_NoDup seen l : NoDup (key <$> masked seen l).
Proof.
  revert seen. induction l as [|x l IHl]; intros seen.
  - constructor.
  - rewrite masked_cons. destruct (decide (key x ∈ seen)); [apply IHl|].
    rewrite fmap_cons. constructor; [|apply IHl].
    rewrite masked_keys. set_solver.
Qed.

Lemma masked_sublist seen l : masked seen l `sublist_of` l.
Proof.
  revert seen. induction l as [|x l IHl]; intros seen; [done|].
  rewrite masked_cons. destruct (decide (key x ∈ seen)).
  - by apply sublist_cons.
  - by apply sublist_skip.
Qed.

Lemma drop_duplicates_keys l k :
  k ∈ key <$> drop_duplicates key l ↔ k ∈ key <$> l.
Proof.
  change (drop_duplicates key l) with (masked ∅ l). rewrite masked_keys. set_solver.
Qed.

Lemma drop_duplicates_NoDup l : NoDup (key <$> drop_duplicates key l).
Proof. apply masked_NoDup. Qed.

Lemma drop_duplicates_sublist l : drop_duplicates key l `sublist_of` l.
Proof. apply masked_sublist. Qed.
End Dedup.

Lemma unique_elem_of (values : list string) (x : string) :
  x ∈ unique values ↔ x ∈ values.
Proof.
  unfold unique. pose proof (drop_duplicates_keys id values x) as Hk.
  by rewrite !list_fmap_id in Hk.
Qed.

(** C2. Whatever the two files hold, the loader returns their rows, first
    file first, without those rows whose track name is the track name of a
    row further up: the result is the merge of the specification, it keeps
    the order of the rows, no track name is left twice and every track name
    of the input is still there. *)
Theorem load_library_keeps_first_occurrences
    (read_csv : string → option (list Row)) (first second : list Row) :
  read_csv TIDAL_CSV = Some first →
  read_csv SPOTIFY_CSV = Some second →
  ∃ merged,
    load_library read_csv = Some merged
    ∧ merged = spec_merge first second
    ∧ merged `sublist_of` first ++ second
    ∧ NoDup (row_track <$> merged)
    ∧ ∀ r, r ∈ first ++ second → row_track r ∈ row_track <$> merged.
Proof.
  intros Hfirst Hsecond.
  exists (drop_duplicates row_track (first ++ second)).
  split; [|split; [|split; [|split]]].
  - unfold load_library. rewrite Hfirst, Hsecond. cbn.
    by rewrite app_nil_r.
  - apply drop_duplicates_first.
  - apply drop_duplicates_sublist.
  - apply drop_duplicates_NoDup.
  - intros r Hr. apply drop_duplicates_keys. by apply list_elem_of_fmap_2.
Qed.

Lemma load_library_keeps_first_occurrences_witness :
  ∃ merged,
    load_library Demo.read_csv = Some merged
    ∧ merged = spec_merge Demo.tidal_rows Demo.spotify_rows
    ∧ merged `sublist_of` Demo.tidal_rows ++ Demo.spotify_rows
    ∧ NoDup (row_track <$> merged)
    ∧ ∀ r, r ∈ Demo.tidal_rows ++ Demo.spotify_rows → row_track r ∈ row_track <$> merged.
Proof.
  apply (load_library_keeps_first_occurrences Demo.read_csv Demo.tidal_rows Demo.spotify_rows);
    reflexivity.
Defined.

(** The second "Yellow" goes, whichever file it is in. *)
Example load_library_demo :
  load_library Demo.read_csv
  = Some [ Demo.row "Road Trip" "Yellow" "Coldplay"; Demo.row "Gym" "Clocks" "Coldplay";
           Demo.row "Chill" "Karma Police" "Radiohead" ].
Proof. vm_compute. reflexivity. Qed.

(** ** Dictionaries and the log *)

Lemma py_dict_from_is_Some {V} (items : list (string * V)) (d : gmap string V) (k : string) :
  is_Some (foldl (λ d kv, <[kv.1 := kv.2]> d) d items !! k)
  ↔ is_Some (d !! k) ∨ k ∈ items.*1.
Proof.
  revert d. induction items as [|[k' v] items IHitems]; intros d; cbn.
  - rewrite elem_of_nil. tauto.
  - rewrite IHitems, elem_of_cons, lookup_insert_is_Some.
    destruct (decide (k' = k)) as [->|Hne]; [tauto|].
    split; [intros [[?|[_ ?]]|?]|intros [?|[?|?]]]; auto; congruence.
Qed.

Lemma py_dict_is_Some {V} (items : list (string * V)) (k : string) :
  is_Some (py_dict items !! k) ↔ k ∈ items.*1.
Proof.
  unfold py_dict. rewrite py_dict_from_is_Some, lookup_empty.
  split; [intros [[? ?]|?]|]; auto; discriminate.
Qed.

Lemma searches_app (l k : list Event) : searches (l ++ k) = searches l ++ searches k.
Proof. apply omap_app. Qed.

Lemma adds_app (l k : list Event) : adds (l ++ k) = adds l ++ adds k.
Proof. apply omap_app. Qed.

Lemma fetches_app (l k : list Event) : fetches (l ++ k) = fetches l ++ fetches k.
Proof. apply omap_app. Qed.

Lemma creations_app (l k : list Event) : creations (l ++ k) = creations l ++ creations k.
Proof. apply omap_app. Qed.

(** ** Playlist resolver *)

Section Resolver.
Context `{PyStr} `{Remote R}.

Lemma existing_playlists_None (r : R) (k : string) :
  existing_playlists_of r !! k = None
  ↔ k ∉ (λ p, lower (pl_name p)) <$> user_playlists r.
Proof.
  unfold existing_playlists_of.
  rewrite eq_None_not_Some, py_dict_is_Some, <-list_fmap_compose.
  done.
Qed.

(** What the loop of the resolver does from any point on: the keys it adds
    are the lowercased names, and it creates the names it does not find. *)
Lemma resolve_names (existing : gmap string Playlist) (names : list string)
    (w : World R) (playlists : gmap string Playlist) :
  ∃ events,
    log (foldl (resolve_name existing) (w, playlists) names).1 = log w ++ events
    ∧ dom (foldl (resolve_name existing) (w, playlists) names).2
      = dom playlists ∪ list_to_set (lower <$> names)
    ∧ creations events = filter (λ name, existing !! lower name = None) names
    ∧ searches events = [] ∧ adds events = [] ∧ fetches events = [].
Proof.
  revert w playlists. induction names as [|name names IHnames]; intros w playlists.
  - exists []. cbn. rewrite app_nil_r. split_and!; try done. set_solver.
  - cbn [foldl]. unfold resolve_name at 2 4.
    destruct (existing !! lower name) as [p|] eqn:Hex.
    + destruct (IHnames (emit (Printed (PlaylistExists name)) w)
                  (<[lower name := p]> playlists))
        as (events & Hlog & Hdom & Hcr & Hs & Ha & Hf).
      exists (Printed (PlaylistExists name) :: events).
      rewrite Hlog, Hdom. cbn [emit log]. rewrite <-(assoc_L (++)). cbn [app].
      split_and!; try done.
      * rewrite dom_insert_L, fmap_cons, list_to_set_cons. set_solver.
      * rewrite filter_cons_False by (rewrite Hex; discriminate). done.
    + destruct (create_playlist (remote w) name "Playlist created from CSV file")
        as [r new_playlist] eqn:Hcreate.
      match goal with
      | |- context [foldl _ (?w', ?pl') names] =>
          destruct (IHnames w' pl') as (events & Hlog & Hdom & Hcr & Hs & Ha & Hf)
      end.
      exists (CallCreate name "Playlist created from CSV file"
                :: Printed (PlaylistCreated name) :: events).
      rewrite Hlog, Hdom. cbn [emit log]. rewrite <-!(assoc_L (++)). cbn [app].
      split_and!; try done.
      * rewrite dom_insert_L, fmap_cons, list_to_set_cons. set_solver.
      * rewrite filter_cons_True by done. cbn. f_equal. exact Hcr.
Qed.

Lemma get_or_create_playlists_spec (w : World R) (playlist_names : list string) :
  ∃ events,
    log (get_or_create_playlists w playlist_names).1 = log w ++ events
    ∧ dom (get_or_create_playlists w playlist_names).2
      = list_to_set (lower <$> playlist_names)
    ∧ creations events
      = filter (λ name, lower name ∉ (λ p, lower (pl_name p)) <$> user_playlists (remote w))
          playlist_names
    ∧ searches events = [] ∧ adds events = [] ∧ fetches events = [].
Proof.
  unfold get_or_create_playlists.
  destruct (resolve_names (existing_playlists_of (remote w)) playlist_names
              (emit CallPlaylists w) ∅)
    as (events & Hlog & Hdom & Hcr & Hs & Ha & Hf).
  exists (CallPlaylists :: events).
  rewrite Hlog, Hdom. cbn [emit log]. rewrite <-(assoc_L (++)). cbn [app].
  split_and!; try done.
  - set_solver.
  - change (creations (CallPlaylists :: events)) with (creations events).
    rewrite Hcr. apply list_filter_iff. intros name.
    apply existing_playlists_None.
Qed.

(** C3. The mapping the resolver returns has exactly the lowercased
    requested names as keys, and the playlists it creates are the
    requested names whose lowercased form is not the lowercased name of a
    playlist the account had: none is created for a name that existed. *)
Theorem get_or_create_playlists_keys_and_creations
    (w : World R) (playlist_names : list string) :
  let existing_names := (λ p, lower (pl_name p)) <$> user_playlists (remote w) in
  ∃ events,
    log (get_or_create_playlists w playlist_names).1 = log w ++ events
    ∧ dom (get_or_create_playlists w playlist_names).2
      = list_to_set (lower <$> playlist_names)
    ∧ creations events = filter (λ name, lower name ∉ existing_names) playlist_names
    ∧ ∀ name, name ∈ creations events → lower name ∉ existing_names.
Proof.
  intros existing_names.
  destruct (get_or_create_playlists_spec w playlist_names)
    as (events & Hlog & Hdom & Hcr & _).
  exists events. split_and!; try done.
  intros name. rewrite Hcr, list_elem_of_filter. tauto.
Qed.
End Resolver.

(** ** Import engine: one record *)

Section OneRecord.
Context `{PyStr} `{Remote R}.

Lemma existing_tracks_is_Some (r : R) (playlist : Playlist) (name : string) :
  is_Some (existing_tracks_of r playlist !! name) ↔ name ∈ listed_names r playlist.
Proof.
  unfold existing_tracks_of, listed_names.
  by rewrite py_dict_is_Some, <-list_fmap_compose.
Qed.

Lemma first_track_head (d : gmap string (list Track)) (track : Track) (others : list Track) :
  d !! "tracks" = Some (track :: others) → first_track (Some d) = Some track.
Proof.
  intros Hd. unfold first_track. rewrite Hd.
  rewrite bool_decide_eq_true_2; [done|].
  intros ->. by rewrite lookup_empty in Hd.
Qed.

Lemma first_track_lacking (search_result : option (gmap string (list Track))) :
  lacks_tracks search_result → first_track search_result = None.
Proof.
  intros Hlack. destruct search_result as [d|]; [|done].
  unfold first_track. destruct (Hlack d eq_refl) as [-> | ->]; by case_bool_decide.
Qed.

Lemma first_track_Some_inv (search_result : option (gmap string (list Track))) track :
  first_track search_result = Some track →
  ∃ d others, search_result = Some d ∧ d !! "tracks" = Some (track :: others).
Proof.
  unfold first_track. destruct search_result as [d|]; [|done].
  case_bool_decide; [|done].
  destruct (d !! "tracks") as [[|t others]|] eqn:Hd; try done.
  intros [= ->]. eauto.
Qed.

(** The four ways through the body of the loop. *)
Lemma process_row_absent playlists w not_found_tracks row :
  playlists !! lower (playlist_name_of row) = None →
  process_row playlists (w, not_found_tracks) row
  = ({| remote := remote w;
        log := log w ++ [Printed (PlaylistNotFound (playlist_name_of row))] |},
     not_found_tracks ++ [unmatched_of row]).
Proof. intros Hnone. unfold process_row. by rewrite Hnone. Qed.

Lemma process_row_no_track playlists w not_found_tracks row playlist :
  playlists !! lower (playlist_name_of row) = Some playlist →
  first_track (search (remote w) (search_query_of row)) = None →
  process_row playlists (w, not_found_tracks) row
  = ({| remote := remote w;
        log := log w ++ [Printed (Processing (pl_name playlist)); CallTracks playlist;
                         CallSearch (search_query_of row);
                         Printed (TrackNotFound (track_name_of row) (artist_name_of row))] |},
     not_found_tracks ++ [unmatched_of row]).
Proof.
  intros Hsome Hnone. unfold process_row. rewrite Hsome. cbn [emit remote log].
  rewrite Hnone. unfold emit. cbn [remote log]. by rewrite <-!(assoc_L (++)).
Qed.

Lemma process_row_present playlists w not_found_tracks row playlist track :
  playlists !! lower (playlist_name_of row) = Some playlist →
  first_track (search (remote w) (search_query_of row)) = Some track →
  lower (tr_name track) ∈ listed_names (remote w) playlist →
  process_row playlists (w, not_found_tracks) row
  = ({| remote := remote w;
        log := log w ++ [Printed (Processing (pl_name playlist)); CallTracks playlist;
                         CallSearch (search_query_of row);
                         Printed (AlreadyIn (tr_name track) (pl_name playlist))] |},
     not_found_tracks).
Proof.
  intros Hsome Htrack Hin. unfold process_row. rewrite Hsome. cbn [emit remote log].
  rewrite Htrack.
  rewrite bool_decide_eq_true_2 by (by apply existing_tracks_is_Some).
  unfold emit. cbn [remote log]. by rewrite <-!(assoc_L (++)).
Qed.

Lemma process_row_added playlists w not_found_tracks row playlist track :
  playlists !! lower (playlist_name_of row) = Some playlist →
  first_track (search (remote w) (search_query_of row)) = Some track →
  lower (tr_name track) ∉ listed_names (remote w) playlist →
  process_row playlists (w, not_found_tracks) row
  = ({| remote := playlist_add (remote w) playlist [tr_id track];
        log := log w ++ [Printed (Processing (pl_name playlist)); CallTracks playlist;
                         CallSearch (search_query_of row);
                         CallAdd playlist [tr_id track];
                         Printed (Added (tr_name track) (tr_artist track) (pl_name playlist))] |},
     not_found_tracks).
Proof.
  intros Hsome Htrack Hin. unfold process_row. rewrite Hsome. cbn [emit remote log].
  rewrite Htrack.
  rewrite bool_decide_eq_false_2 by (by rewrite existing_tracks_is_Some).
  unfold emit. cbn [remote log]. by rewrite <-!(assoc_L (++)).
Qed.

Lemma state_after_snoc w song_data pre row :
  state_after w song_data (pre ++ [row])
  = process_row (resolved_playlists w song_data) (state_after w song_data pre) row.
Proof. unfold state_after, run_rows. by rewrite foldl_snoc. Qed.

Lemma state_after_app w song_data pre post :
  state_after w song_data (pre ++ post)
  = run_rows (resolved_playlists w song_data) (state_after w song_data pre) post.
Proof. unfold state_after, run_rows. by rewrite foldl_app. Qed.

(** C4. In a run, a record whose trimmed, lowercased playlist name is not
    a key of the resolved mapping adds exactly one unmatched entry, its
    own; the only thing done for it is the line that the playlist was not
    found: no search, no add, and the remote state is left as it was. *)
Theorem absent_playlist_is_reported (w : World R) (song_data pre post : list Row) (row : Row) :
  song_data = pre ++ row :: post →
  resolved_playlists w song_data !! lower (strip (row_playlist row)) = None →
  (state_after w song_data (pre ++ [row])).2
    = (state_after w song_data pre).2 ++ [unmatched_of row]
  ∧ log (state_after w song_data (pre ++ [row])).1
    = log (state_after w song_data pre).1
      ++ [Printed (PlaylistNotFound (strip (row_playlist row)))]
  ∧ remote (state_after w song_data (pre ++ [row])).1
    = remote (state_after w song_data pre).1
  ∧ searches (log (state_after w song_data (pre ++ [row])).1)
    = searches (log (state_after w song_data pre).1)
  ∧ adds (log (state_after w song_data (pre ++ [row])).1)
    = adds (log (state_after w song_data pre).1).
Proof.
  intros _ Hnone. rewrite state_after_snoc.
  destruct (state_after w song_data pre) as [w' not_found_tracks].
  rewrite (process_row_absent _ _ _ _ Hnone). cbn [fst snd log remote].
  rewrite searches_app, adds_app. cbn. by rewrite !app_nil_r.
Qed.

(** C5. In a run, a record that reaches the search and whose search result
    has no "tracks" category, or an empty one, adds exactly one unmatched
    entry, its own, with the line that the track was not found; no add is
    made, and the run goes on with the records after it. *)
Theorem trackless_search_is_reported
    (w : World R) (song_data pre post : list Row) (row : Row) (playlist : Playlist) :
  song_data = pre ++ row :: post →
  resolved_playlists w song_data !! lower (strip (row_playlist row)) = Some playlist →
  lacks_tracks (search (remote (state_after w song_data pre).1) (search_query_of row)) →
  (state_after w song_data (pre ++ [row])).2
    = (state_after w song_data pre).2 ++ [unmatched_of row]
  ∧ log (state_after w song_data (pre ++ [row])).1
    = log (state_after w song_data pre).1
      ++ [Printed (Processing (pl_name playlist)); CallTracks playlist;
          CallSearch (search_query_of row);
          Printed (TrackNotFound (track_name_of row) (artist_name_of row))]
  ∧ remote (state_after w song_data (pre ++ [row])).1
    = remote (state_after w song_data pre).1
  ∧ adds (log (state_after w song_data (pre ++ [row])).1)
    = adds (log (state_after w song_data pre).1)
  ∧ state_after w song_data song_data
    = run_rows (resolved_playlists w song_data)
        (state_after w song_data (pre ++ [row])) post.
Proof.
  intros Hdata Hsome Hlack. split_and!.
  5: { rewrite <-state_after_app, <-(assoc_L (++)). cbn. by rewrite <-Hdata. }
  all: rewrite state_after_snoc.
  all: destruct (state_after w song_data pre) as [w' not_found_tracks].
  all: rewrite (process_row_no_track _ _ _ _ _ Hsome (first_track_lacking _ Hlack)).
  all: cbn [fst snd log remote]; try done.
  rewrite adds_app. cbn. by rewrite app_nil_r.
Qed.

(** C6. In a run, a record whose search returns tracks and whose first
    track has a lowercased name among the lowercased names the playlist
    lists is skipped: no add call, no unmatched entry, and the remote state
    is left as it was. *)
Theorem present_track_is_skipped
    (w : World R) (song_data pre post : list Row) (row : Row) (playlist : Playlist)
    (d : gmap string (list Track)) (track : Track) (others : list Track) :
  song_data = pre ++ row :: post →
  resolved_playlists w song_data !! lower (strip (row_playlist row)) = Some playlist →
  search (remote (state_after w song_data pre).1) (search_query_of row) = Some d →
  d !! "tracks" = Some (track :: others) →
  lower (tr_name track) ∈ listed_names (remote (state_after w song_data pre).1) playlist →
  (state_after w song_data (pre ++ [row])).2 = (state_after w song_data pre).2
  ∧ log (state_after w song_data (pre ++ [row])).1
    = log (state_after w song_data pre).1
      ++ [Printed (Processing (pl_name playlist)); CallTracks playlist;
          CallSearch (search_query_of row);
          Printed (AlreadyIn (tr_name track) (pl_name playlist))]
  ∧ remote (state_after w song_data (pre ++ [row])).1
    = remote (state_after w song_data pre).1
  ∧ adds (log (state_after w song_data (pre ++ [row])).1)
    = adds (log (state_after w song_data pre).1).
Proof.
  intros _ Hsome Hsearch Hd Hin. rewrite state_after_snoc.
  destruct (state_after w song_data pre) as [w' not_found_tracks].
  cbn [fst] in Hsearch, Hin.
  assert (Htrack : first_track (search (remote w') (search_query_of row)) = Some track).
  { rewrite Hsearch. by eapply first_track_head. }
  rewrite (process_row_present _ _ _ _ _ _ Hsome Htrack Hin). cbn [fst snd log remote].
  rewrite adds_app. cbn. by rewrite app_nil_r.
Qed.
End OneRecord.

(** ** Import engine: a whole run *)

Section Run.
Context `{PyStr} `{Remote R}.

(** What one record adds to the log and to the unmatched entries. *)
Lemma process_row_step (playlists : gmap string Playlist)
    (st : World R * list Unmatched) (row : Row) :
  ∃ events entries,
    log (process_row playlists st row).1 = log st.1 ++ events
    ∧ (process_row playlists st row).2 = st.2 ++ entries
    ∧ searches events `sublist_of` [search_query_of row]
    ∧ entries `sublist_of` [unmatched_of row]
    ∧ fetches events = option_list (playlists !! lower (playlist_name_of row)).
Proof.
  destruct st as [w not_found_tracks].
  destruct (playlists !! lower (playlist_name_of row)) as [playlist|] eqn:Hlookup.
  - destruct (first_track (search (remote w) (search_query_of row)))
      as [track|] eqn:Htrack.
    + destruct (decide (lower (tr_name track) ∈ listed_names (remote w) playlist))
        as [Hin|Hout].
      * rewrite (process_row_present _ _ _ _ _ _ Hlookup Htrack Hin).
        eexists _, []. cbn [fst snd log].
        split_and!; [done|by rewrite app_nil_r|done|apply sublist_nil_l|done].
      * rewrite (process_row_added _ _ _ _ _ _ Hlookup Htrack Hout).
        eexists _, []. cbn [fst snd log].
        split_and!; [done|by rewrite app_nil_r|done|apply sublist_nil_l|done].
    + rewrite (process_row_no_track _ _ _ _ _ Hlookup Htrack).
      eexists _, _. cbn [fst snd log]. split_and!; done.
  - rewrite (process_row_absent _ _ _ _ Hlookup).
    eexists _, _. cbn [fst snd log]. split_and!; try done. apply sublist_nil_l.
Qed.

Lemma run_rows_trace (playlists : gmap string Playlist)
    (rows : list Row) (st : World R * list Unmatched) :
  ∃ events entries,
    log (run_rows playlists st rows).1 = log st.1 ++ events
    ∧ (run_rows playlists st rows).2 = st.2 ++ entries
    ∧ searches events `sublist_of` search_query_of <$> rows
    ∧ entries `sublist_of` unmatched_of <$> rows
    ∧ fetches events = omap (λ row, playlists !! lower (playlist_name_of row)) rows.
Proof.
  revert st. induction rows as [|row rows IHrows]; intros st.
  - exists [], []. cbn. by rewrite !app_nil_r.
  - cbn [run_rows foldl].
    destruct (process_row_step playlists st row)
      as (ev1 & en1 & Hlog1 & Hnf1 & Hs1 & He1 & Hf1).
    destruct (IHrows (process_row playlists st row))
      as (ev2 & en2 & Hlog2 & Hnf2 & Hs2 & He2 & Hf2).
    exists (ev1 ++ ev2), (en1 ++ en2). unfold run_rows in *.
    rewrite Hlog2, Hlog1, Hnf2, Hnf1, !(assoc_L (++)).
    rewrite searches_app, fetches_app, Hf1, Hf2.
    split_and!; try done.
    + by apply (sublist_app _ [_]).
    + by apply (sublist_app _ [_]).
    + cbn. by destruct (playlists !! lower (playlist_name_of row)).
Qed.

Lemma add_songs_to_playlists_unfold (w : World R) (song_data : list Row) :
  add_songs_to_playlists w song_data
  = match (state_after w song_data song_data).2 with
    | _ :: _ => (emit (Printed SavedMissing) (state_after w song_data song_data).1,
                 Some (state_after w song_data song_data).2)
    | [] => (emit (Printed AllAdded) (state_after w song_data song_data).1, None)
    end.
Proof.
  unfold add_songs_to_playlists, state_after, resolved_playlists.
  destruct (get_or_create_playlists w (unique (row_playlist <$> song_data)))
    as [w1 playlists].
  cbn [fst snd]. destruct (run_rows playlists (w1, []) song_data) as [w2 [|e es]]; done.
Qed.

(** The log and the report of a whole run. *)
Lemma add_songs_to_playlists_trace (w : World R) (song_data : list Row) :
  ∃ events entries,
    log (add_songs_to_playlists w song_data).1 = log w ++ events
    ∧ (add_songs_to_playlists w song_data).2
      = match entries with [] => None | _ => Some entries end
    ∧ searches events `sublist_of` search_query_of <$> song_data
    ∧ entries `sublist_of` unmatched_of <$> song_data
    ∧ fetches events
      = omap (λ row, resolved_playlists w song_data !! lower (playlist_name_of row))
          song_data.
Proof.
  rewrite add_songs_to_playlists_unfold. unfold state_after.
  destruct (get_or_create_playlists_spec w (unique (row_playlist <$> song_data)))
    as (ev0 & Hlog0 & _ & _ & Hs0 & _ & Hf0).
  destruct (run_rows_trace (resolved_playlists w song_data) song_data
              ((get_or_create_playlists w (unique (row_playlist <$> song_data))).1, []))
    as (ev1 & entries & Hlog1 & Hnf1 & Hs1 & He1 & Hf1).
  cbn [fst snd] in Hlog1, Hnf1. rewrite Hlog0 in Hlog1.
  destruct (run_rows _ _ song_data) as [w2 not_found_tracks].
  cbn [fst snd] in *. subst not_found_tracks.
  destruct entries as [|e es].
  - exists (ev0 ++ ev1 ++ [Printed AllAdded]), []. cbn [app emit log fst snd].
    rewrite Hlog1, !searches_app, !fetches_app, Hs0, Hf0, Hf1, <-!(assoc_L (++)).
    cbn [app searches fetches omap list_omap]. by rewrite !app_nil_r.
  - exists (ev0 ++ ev1 ++ [Printed SavedMissing]), (e :: es). cbn [app emit log fst snd].
    rewrite Hlog1, !searches_app, !fetches_app, Hs0, Hf0, Hf1, <-!(assoc_L (++)).
    cbn [app searches fetches omap list_omap]. by rewrite !app_nil_r.
Qed.

(** What one record adds to the add calls. *)
Lemma adds_of_record (w : World R) (song_data pre : list Row) (row : Row)
    (playlist : Playlist) (track : Track) :
  resolved_playlists w song_data !! lower (playlist_name_of row) = Some playlist →
  first_track (search (remote (state_after w song_data pre).1) (search_query_of row))
    = Some track →
  adds (log (state_after w song_data (pre ++ [row])).1)
  = adds (log (state_after w song_data pre).1)
    ++ (if decide (lower (tr_name track)
                     ∈ listed_names (remote (state_after w song_data pre).1) playlist)
        then [] else [(playlist, [tr_id track])]).
Proof.
  intros Hlookup Htrack. rewrite state_after_snoc.
  destruct (state_after w song_data pre) as [w' not_found_tracks].
  cbn [fst] in *. case_decide as Hin.
  - rewrite (process_row_present _ _ _ _ _ _ Hlookup Htrack Hin).
    cbn [fst log]. rewrite adds_app. done.
  - rewrite (process_row_added _ _ _ _ _ _ Hlookup Htrack Hin).
    cbn [fst log]. rewrite adds_app. done.
Qed.

Lemma adds_of_unplaced_record (w : World R) (song_data pre : list Row) (row : Row) :
  (resolved_playlists w song_data !! lower (playlist_name_of row) = None
   ∨ first_track (search (remote (state_after w song_data pre).1) (search_query_of row))
     = None) →
  adds (log (state_after w song_data (pre ++ [row])).1)
  = adds (log (state_after w song_data pre).1).
Proof.
  intros Hcase. rewrite state_after_snoc.
  destruct (state_after w song_data pre) as [w' not_found_tracks]. cbn [fst] in *.
  destruct (resolved_playlists w song_data !! lower (playlist_name_of row))
    as [playlist|] eqn:Hlookup.
  - destruct Hcase as [?|Hnone]; [done|].
    rewrite (process_row_no_track _ _ _ _ _ Hlookup Hnone).
    cbn [fst log]. rewrite adds_app. cbn. by rewrite app_nil_r.
  - rewrite (process_row_absent _ _ _ _ Hlookup).
    cbn [fst log]. rewrite adds_app. cbn. by rewrite app_nil_r.
Qed.

(** C1, as the code has it. The track list of the target playlist is
    fetched while each record is processed: a run makes one fetch for every
    record whose playlist is in the mapping, in the order of the records,
    and so as many fetches of one playlist as records target it. The
    duplicate check of a record uses the listing of the remote state as it
    is when that record is reached: the record issues an add call exactly
    when the lowercased name of the first track found is not among the
    lowercased names the playlist lists then. *)
Theorem tracks_fetched_for_every_record (w : World R) (song_data : list Row) :
  (∃ events,
      log (add_songs_to_playlists w song_data).1 = log w ++ events
      ∧ fetches events
        = omap (λ row, resolved_playlists w song_data !! lower (strip (row_playlist row)))
            song_data)
  ∧ ∀ pre row post playlist track,
      song_data = pre ++ row :: post →
      resolved_playlists w song_data !! lower (strip (row_playlist row)) = Some playlist →
      first_track (search (remote (state_after w song_data pre).1) (search_query_of row))
        = Some track →
      adds (log (state_after w song_data (pre ++ [row])).1)
      = adds (log (state_after w song_data pre).1)
        ++ (if decide (lower (tr_name track)
                         ∈ listed_names (remote (state_after w song_data pre).1) playlist)
            then [] else [(playlist, [tr_id track])]).
Proof.
  split.
  - destruct (add_songs_to_playlists_trace w song_data)
      as (events & entries & Hlog & _ & _ & _ & Hf).
    by exists events.
  - intros pre row post playlist track _. apply adds_of_record.
Qed.


Lemma resolved_playlists_dom (w : World R) (song_data : list Row) (k : string) :
  is_Some (resolved_playlists w song_data !! k)
  ↔ ∃ row, row ∈ song_data ∧ k = lower (row_playlist row).
Proof.
  unfold resolved_playlists.
  destruct (get_or_create_playlists_spec w (unique (row_playlist <$> song_data)))
    as (events & _ & Hdom & _).
  rewrite <-elem_of_dom, Hdom, elem_of_list_to_set, list_elem_of_fmap.
  split.
  - intros (name & -> & Hname). rewrite unique_elem_of, list_elem_of_fmap in Hname.
    destruct Hname as (row & -> & Hrow). by exists row.
  - intros (row & Hrow & ->). exists (row_playlist row). split; [done|].
    apply unique_elem_of. by apply list_elem_of_fmap_2.
Qed.

(** C8, as the code has it. The mapping is keyed by the lowercased,
    untrimmed playlist names of the records and looked up by the trimmed,
    lowercased name. A record whose playlist name has leading or trailing
    whitespace, and whose trimmed, lowercased name is not the lowercased
    name of any record, misses the mapping: it is reported unmatched with
    the line that the playlist was not found, although the mapping holds a
    playlist for its untrimmed name. *)
Theorem padded_playlist_name_is_missed
    (w : World R) (song_data pre post : list Row) (row : Row) :
  song_data = pre ++ row :: post →
  strip (row_playlist row) ≠ row_playlist row →
  (∀ other, other ∈ song_data →
     lower (row_playlist other) ≠ lower (strip (row_playlist row))) →
  is_Some (resolved_playlists w song_data !! lower (row_playlist row))
  ∧ resolved_playlists w song_data !! lower (strip (row_playlist row)) = None
  ∧ (state_after w song_data (pre ++ [row])).2
    = (state_after w song_data pre).2 ++ [unmatched_of row]
  ∧ log (state_after w song_data (pre ++ [row])).1
    = log (state_after w song_data pre).1
      ++ [Printed (PlaylistNotFound (strip (row_playlist row)))].
Proof.
  intros Hdata _ Hfresh.
  assert (Hnone : resolved_playlists w song_data !! lower (strip (row_playlist row)) = None).
  { apply eq_None_not_Some. rewrite resolved_playlists_dom.
    intros (other & Hother & Heq). by apply (Hfresh other Hother). }
  split_and!; [|done| |].
  - apply resolved_playlists_dom. exists row. split; [|done].
    rewrite Hdata. set_solver.
  - rewrite state_after_snoc.
    destruct (state_after w song_data pre) as [w' not_found_tracks].
    by rewrite (process_row_absent _ _ _ _ Hnone).
  - rewrite state_after_snoc.
    destruct (state_after w song_data pre) as [w' not_found_tracks].
    by rewrite (process_row_absent _ _ _ _ Hnone).
Qed.
End Run.

(** ** Additions of the same run *)

Section Reflecting.
Context `{PyStr} `{Remote R}.

(** The remote listing reflects additions: once the first track of a search
    has been added to a playlist, the playlist lists its name, and an
    addition takes no name off any listing. *)
Hypothesis add_lists :
  ∀ (r : R) (playlist : Playlist) (query : string) (track : Track),
    first_track (search r query) = Some track →
    lower (tr_name track) ∈ listed_names (playlist_add r playlist [tr_id track]) playlist.
Hypothesis add_keeps :
  ∀ (r : R) (playlist target : Playlist) (track_ids : list Z) (name : string),
    name ∈ listed_names r playlist →
    name ∈ listed_names (playlist_add r target track_ids) playlist.

Lemma listed_after_record playlists (st : World R * list Unmatched) row playlist name :
  name ∈ listed_names (remote st.1) playlist →
  name ∈ listed_names (remote (process_row playlists st row).1) playlist.
Proof.
  destruct st as [w not_found_tracks]. cbn [fst]. intros Hin.
  destruct (playlists !! lower (playlist_name_of row)) as [target|] eqn:Hlookup.
  - destruct (first_track (search (remote w) (search_query_of row)))
      as [track|] eqn:Htrack.
    + destruct (decide (lower (tr_name track) ∈ listed_names (remote w) target))
        as [Hthere|Hnew].
      * by rewrite (process_row_present _ _ _ _ _ _ Hlookup Htrack Hthere).
      * rewrite (process_row_added _ _ _ _ _ _ Hlookup Htrack Hnew).
        by apply add_keeps.
    + by rewrite (process_row_no_track _ _ _ _ _ Hlookup Htrack).
  - by rewrite (process_row_absent _ _ _ _ Hlookup).
Qed.

Lemma listed_after_rows playlists rows (st : World R * list Unmatched) playlist name :
  name ∈ listed_names (remote st.1) playlist →
  name ∈ listed_names (remote (run_rows playlists st rows).1) playlist.
Proof.
  revert st. induction rows as [|row rows IHrows]; intros st Hin; [done|].
  apply IHrows. by apply listed_after_record.
Qed.

Lemma record_lists_its_track playlists (st : World R * list Unmatched) row playlist track :
  playlists !! lower (playlist_name_of row) = Some playlist →
  first_track (search (remote st.1) (search_query_of row)) = Some track →
  lower (tr_name track) ∈ listed_names (remote (process_row playlists st row).1) playlist.
Proof.
  destruct st as [w not_found_tracks]. cbn [fst]. intros Hlookup Htrack.
  destruct (decide (lower (tr_name track) ∈ listed_names (remote w) playlist))
    as [Hthere|Hnew].
  - by rewrite (process_row_present _ _ _ _ _ _ Hlookup Htrack Hthere).
  - rewrite (process_row_added _ _ _ _ _ _ Hlookup Htrack Hnew).
    by eapply add_lists.
Qed.

(** C9. The listing is fetched afresh for each record, so in a run an add
    call is only ever issued for the first track of the record's search
    when its lowercased name is not among the names the playlist lists at
    that moment. Where the listing reflects additions, this covers the
    tracks of earlier records of the run: once a record has found a track
    for a playlist, no later record of the run whose track has the same
    lowercased name issues an add call for that playlist. *)
Theorem no_add_for_a_listed_track (w : World R) (song_data : list Row) :
  (∀ pre row post playlist track_ids,
      song_data = pre ++ row :: post →
      adds (log (state_after w song_data (pre ++ [row])).1)
        = adds (log (state_after w song_data pre).1) ++ [(playlist, track_ids)] →
      ∃ track,
        track_ids = [tr_id track]
        ∧ resolved_playlists w song_data !! lower (strip (row_playlist row)) = Some playlist
        ∧ first_track (search (remote (state_after w song_data pre).1) (search_query_of row))
          = Some track
        ∧ lower (tr_name track)
          ∉ listed_names (remote (state_after w song_data pre).1) playlist)
  ∧ (∀ pre1 row1 pre2 row2 post playlist track1 track2,
      song_data = pre1 ++ row1 :: pre2 ++ row2 :: post →
      resolved_playlists w song_data !! lower (strip (row_playlist row1)) = Some playlist →
      resolved_playlists w song_data !! lower (strip (row_playlist row2)) = Some playlist →
      first_track (search (remote (state_after w song_data pre1).1) (search_query_of row1))
        = Some track1 →
      first_track (search (remote (state_after w song_data (pre1 ++ row1 :: pre2)).1)
                     (search_query_of row2))
        = Some track2 →
      lower (tr_name track2) = lower (tr_name track1) →
      adds (log (state_after w song_data ((pre1 ++ row1 :: pre2) ++ [row2])).1)
      = adds (log (state_after w song_data (pre1 ++ row1 :: pre2)).1)).
Proof.
  split.
  - intros pre row post playlist track_ids _ Hadds.
    destruct (resolved_playlists w song_data !! lower (playlist_name_of row))
      as [target|] eqn:Hlookup.
    + destruct (first_track (search (remote (state_after w song_data pre).1)
                               (search_query_of row))) as [track|] eqn:Htrack.
      * rewrite (adds_of_record _ _ _ _ _ _ Hlookup Htrack) in Hadds.
        apply app_inv_head in Hadds. case_decide as Hin; [done|].
        injection Hadds as Hplaylist Hids. subst target track_ids. by exists track.
      * rewrite adds_of_unplaced_record in Hadds by (by right).
        rewrite <-(app_nil_r (adds _)) in Hadds at 1.
        by apply app_inv_head in Hadds.
    + rewrite adds_of_unplaced_record in Hadds by (by left).
      rewrite <-(app_nil_r (adds _)) in Hadds at 1.
      by apply app_inv_head in Hadds.
  - intros pre1 row1 pre2 row2 post playlist track1 track2 _ Hl1 Hl2 Ht1 Ht2 Hname.
    rewrite (adds_of_record _ _ _ _ _ _ Hl2 Ht2).
    rewrite decide_True; [by rewrite app_nil_r|].
    rewrite Hname.
    replace (pre1 ++ row1 :: pre2) with ((pre1 ++ [row1]) ++ pre2)
      by (by rewrite <-(assoc_L (++))).
    rewrite state_after_app. apply listed_after_rows.
    rewrite state_after_snoc. by apply record_lists_its_track.
Qed.
End Reflecting.

(** ** Credential store *)

Section CredentialRoundTrip.
Context {datetime : Type} (epoch_seconds : datetime → Z).
Context (json_dumps : json → string) (json_loads : string → option json).

Lemma load_token_of_object (files : gmap string string) (text : string)
    (fields : list (string * json)) :
  files !! TOKEN_FILE = Some text →
  text ≠ "" →
  json_loads text = Some (JObj fields) →
  "access_token" ∈ fields.*1 →
  "expiry_time" ∈ fields.*1 →
  load_token json_loads files = Ok (Some (JObj fields)).
Proof.
  intros Hfile Htext Hload Haccess Hexpiry. unfold load_token. rewrite Hfile.
  destruct text as [|c text]; [done|]. cbn [String.length Nat.ltb Nat.leb].
  rewrite Hload. cbn [py_in].
  by rewrite !bool_decide_eq_true_2.
Qed.

(** C7. For a session whose four token fields are set, saving the token
    and then loading it gives a record, and the record has the token type,
    the access token and the refresh token of the session and its expiry
    time in whole seconds. The codec of the file is the [json] module's:
    what it is asked for is that it reads back the document it has
    written, and writes it as a text that is not empty. *)
Theorem save_then_load_token
    (session : Session datetime) (files : gmap string string)
    (kind access refresh : string) (expiry : datetime) :
  token_type session = Some kind →
  access_token session = Some access →
  refresh_token session = Some refresh →
  expiry_time session = Some expiry →
  json_loads (json_dumps (token_data_of epoch_seconds session expiry))
    = Some (token_data_of epoch_seconds session expiry) →
  json_dumps (token_data_of epoch_seconds session expiry) ≠ "" →
  ∃ files' token_data,
    save_token epoch_seconds json_dumps session files = Ok files'
    ∧ load_token json_loads files' = Ok (Some token_data)
    ∧ json_get "token_type" token_data = Some (JStr kind)
    ∧ json_get "access_token" token_data = Some (JStr access)
    ∧ json_get "refresh_token" token_data = Some (JStr refresh)
    ∧ json_get "expiry_time" token_data = Some (JInt (epoch_seconds expiry)).
Proof.
  intros Hkind Haccess Hrefresh Hexpiry Hcodec Htext.
  exists (<[TOKEN_FILE := json_dumps (token_data_of epoch_seconds session expiry)]> files),
    (token_data_of epoch_seconds session expiry).
  split_and!.
  - unfold save_token. by rewrite Hexpiry.
  - eapply load_token_of_object; [apply lookup_insert_eq|exact Htext|exact Hcodec| |].
    + cbn. set_solver.
    + cbn. set_solver.
  - unfold token_data_of. by rewrite Hkind.
  - unfold token_data_of. by rewrite Haccess.
  - unfold token_data_of. by rewrite Hrefresh.
  - done.
Qed.
End CredentialRoundTrip.

Lemma save_then_load_token_witness :
  ∃ files' token_data,
    save_token Demo.epoch_seconds FlatJson.dumps Demo.session ∅ = Ok files'
    ∧ load_token FlatJson.loads files' = Ok (Some token_data)
    ∧ json_get "token_type" token_data = Some (JStr "Bearer")
    ∧ json_get "access_token" token_data = Some (JStr "eyJhbGciOiJIUzI1NiJ9.c2Vzc2lvbg")
    ∧ json_get "refresh_token" token_data = Some (JStr "rt-6a1f")
    ∧ json_get "expiry_time" token_data = Some (JInt 1700000000).
Proof.
  apply (save_then_load_token Demo.epoch_seconds FlatJson.dumps FlatJson.loads
           Demo.session ∅ "Bearer" "eyJhbGciOiJIUzI1NiJ9.c2Vzc2lvbg" "rt-6a1f"
           1700000000123456%Z).
  - reflexivity.
  - reflexivity.
  - reflexivity.
  - reflexivity.
  - vm_compute. reflexivity.
  - vm_compute. discriminate.
Defined.

Example token_file_read_back :
  FlatJson.loads (FlatJson.dumps (token_data_of Demo.epoch_seconds Demo.session 1700000000123456%Z))
  = Some (JObj [ ("token_type", JStr "Bearer");
                 ("access_token", JStr "eyJhbGciOiJIUzI1NiJ9.c2Vzc2lvbg");
                 ("refresh_token", JStr "rt-6a1f");
                 ("expiry_time", JInt 1700000000) ]).
Proof. vm_compute. reflexivity. Qed.

(** ** The test double reflects additions *)

Ltac by_compute :=
  match goal with
  | |- ?P => apply (@bool_decide_unpack P _); vm_compute; exact I
  end.

Lemma demo_find_track (track : Track) :
  track ∈ Demo.catalog → Demo.find_track (tr_id track) = Some track.
Proof.
  unfold Demo.catalog. rewrite !elem_of_cons, elem_of_nil.
  intros [->|[->|[->|[]]]]; reflexivity.
Qed.

Lemma demo_first_track_in_catalog (a : Demo.Account) (query : string) (track : Track) :
  first_track (search a query) = Some track → track ∈ Demo.catalog.
Proof.
  intros Htrack. apply first_track_Some_inv in Htrack as (d & others & Hd & Hhits).
  change (Some ({[ "tracks" := List.filter (Demo.hit query) Demo.catalog ]}
                  : gmap string (list Track)) = Some d) in Hd.
  apply (inj Some) in Hd. subst d. rewrite lookup_singleton_eq in Hhits.
  apply (inj Some) in Hhits as Hlist.
  apply list_elem_of_In, (proj1 (filter_In (Demo.hit query) track Demo.catalog)).
  rewrite Hlist. by left.
Qed.

Lemma demo_tracks_after_add (a : Demo.Account) (target playlist : Playlist) (ids : list Z) :
  playlist_tracks (playlist_add a target ids) playlist
  = if decide (pl_id target = pl_id playlist)
    then playlist_tracks a target ++ omap Demo.find_track ids
    else playlist_tracks a playlist.
Proof.
  change (default [] (<[pl_id target := Demo.members_of a target ++ omap Demo.find_track ids]>
                        (Demo.acc_members a) !! pl_id playlist)
          = if decide (pl_id target = pl_id playlist)
            then Demo.members_of a target ++ omap Demo.find_track ids
            else Demo.members_of a playlist).
  case_decide as Hid.
  - by rewrite Hid, lookup_insert_eq.
  - by rewrite lookup_insert_ne.
Qed.

Lemma demo_add_lists (a : Demo.Account) (playlist : Playlist) (query : string) (track : Track) :
  first_track (search a query) = Some track →
  lower (tr_name track) ∈ listed_names (playlist_add a playlist [tr_id track]) playlist.
Proof.
  intros Htrack. apply demo_first_track_in_catalog, demo_find_track in Htrack.
  unfold listed_names. rewrite demo_tracks_after_add, decide_True by done.
  rewrite fmap_app, elem_of_app. right.
  change (omap Demo.find_track [tr_id track])
    with (match Demo.find_track (tr_id track) with Some t => [t] | None => [] end).
  rewrite Htrack. by left.
Qed.

Lemma demo_add_keeps (a : Demo.Account) (playlist target : Playlist)
    (track_ids : list Z) (name : string) :
  name ∈ listed_names a playlist →
  name ∈ listed_names (playlist_add a target track_ids) playlist.
Proof.
  unfold listed_names. rewrite demo_tracks_after_add. intros Hin.
  case_decide as Hid; [|done].
  rewrite fmap_app, elem_of_app. left.
  by replace (playlist_tracks a target) with (playlist_tracks a playlist)
    by (unfold playlist_tracks; cbn; unfold Demo.members_of; by rewrite Hid).
Qed.

(** ** The claims on concrete runs *)

Lemma get_or_create_playlists_keys_and_creations_witness :
  ∃ events,
    log (get_or_create_playlists (Demo.start ["Road Trip"]) ["road trip"; "Gym"; "GYM"]).1
      = [] ++ events
    ∧ dom (get_or_create_playlists (Demo.start ["Road Trip"]) ["road trip"; "Gym"; "GYM"]).2
      = list_to_set (lower <$> ["road trip"; "Gym"; "GYM"])
    ∧ creations events
      = filter (λ name, lower name ∉ (λ p, lower (pl_name p)) <$> [Demo.road_trip])
          ["road trip"; "Gym"; "GYM"]
    ∧ ∀ name, name ∈ creations events →
        lower name ∉ (λ p, lower (pl_name p)) <$> [Demo.road_trip].
Proof.
  exact (get_or_create_playlists_keys_and_creations
           (Demo.start ["Road Trip"]) ["road trip"; "Gym"; "GYM"]).
Defined.

Example resolver_creates_the_missing_names :
  creations (log (get_or_create_playlists (Demo.start ["Road Trip"])
                    ["road trip"; "Gym"; "GYM"]).1)
  = ["Gym"; "GYM"].
Proof. vm_compute. reflexivity. Qed.

Lemma absent_playlist_is_reported_witness :
  (state_after (Demo.start ["Road Trip"]) Demo.padded_alone Demo.padded_alone).2
    = [ {| nf_playlist := "Gym"; nf_track := "Yellow"; nf_artist := "Coldplay" |} ]
  ∧ searches (log (state_after (Demo.start ["Road Trip"]) Demo.padded_alone
                     Demo.padded_alone).1) = []
  ∧ adds (log (state_after (Demo.start ["Road Trip"]) Demo.padded_alone
                 Demo.padded_alone).1) = [].
Proof.
  destruct (absent_playlist_is_reported (Demo.start ["Road Trip"]) Demo.padded_alone
              [] [] (Demo.row "Gym " "Yellow" "Coldplay"))
    as (Hentries & _ & _ & Hsearches & Hadds).
  - reflexivity.
  - vm_compute. reflexivity.
  - split_and!.
    + exact Hentries.
    + exact Hsearches.
    + exact Hadds.
Defined.

Lemma trackless_search_is_reported_witness :
  (state_after (Demo.start ["Gym"]) Demo.ghost_song Demo.ghost_song).2
    = [ {| nf_playlist := "Gym"; nf_track := "Ghost Song"; nf_artist := "" |} ]
  ∧ adds (log (state_after (Demo.start ["Gym"]) Demo.ghost_song Demo.ghost_song).1) = [].
Proof.
  destruct (trackless_search_is_reported (Demo.start ["Gym"]) Demo.ghost_song
              [] [] (Demo.row "Gym" "Ghost Song" "") {| pl_id := 0; pl_name := "Gym" |})
    as (Hentries & _ & _ & Hadds & _).
  - reflexivity.
  - vm_compute. reflexivity.
  - intros d Hd. vm_compute in Hd. injection Hd as <-. right. reflexivity.
  - split; [exact Hentries|exact Hadds].
Defined.

Lemma present_track_is_skipped_witness :
  (state_after (Demo.start ["Road Trip"]) Demo.yellow_twice Demo.yellow_twice).2 = []
  ∧ adds (log (state_after (Demo.start ["Road Trip"]) Demo.yellow_twice
                 Demo.yellow_twice).1)
    = [(Demo.road_trip, [42%Z])].
Proof.
  destruct (present_track_is_skipped (Demo.start ["Road Trip"]) Demo.yellow_twice
              [Demo.row "Road Trip" "Yellow" "Coldplay"] []
              (Demo.row "Road Trip" "yellow" "coldplay") Demo.road_trip
              {[ "tracks" := [Demo.yellow] ]} Demo.yellow [])
    as (Hentries & _ & _ & Hadds).
  - reflexivity.
  - vm_compute. reflexivity.
  - vm_compute. reflexivity.
  - reflexivity.
  - by_compute.
  - split; [exact Hentries|exact Hadds].
Defined.

(** C1 fails as stated. Two records target the playlist "Road Trip" and
    their searches find the same track. The run fetches the track list of
    the playlist twice, once for each record, and the check for the second
    record sees the track the first one added: one add call is made. The
    engine of the specification, which fetches once, makes two. *)
Lemma fetch_once_per_playlist_fails :
  fetches (log (add_songs_to_playlists (Demo.start ["Road Trip"]) Demo.yellow_twice).1)
    = [Demo.road_trip; Demo.road_trip]
  ∧ adds (log (add_songs_to_playlists (Demo.start ["Road Trip"]) Demo.yellow_twice).1)
    = [(Demo.road_trip, [42%Z])]
  ∧ adds (log (spec_add_songs_to_playlists (Demo.start ["Road Trip"]) Demo.yellow_twice).1)
    = [(Demo.road_trip, [42%Z]); (Demo.road_trip, [42%Z])]
  ∧ fetches (log (spec_add_songs_to_playlists (Demo.start ["Road Trip"]) Demo.yellow_twice).1)
    = [Demo.road_trip]
  ∧ add_songs_to_playlists (Demo.start ["Road Trip"]) Demo.yellow_twice
    ≠ spec_add_songs_to_playlists (Demo.start ["Road Trip"]) Demo.yellow_twice.
Proof.
  split_and!; try (vm_compute; reflexivity).
  intros Heq. apply (f_equal (λ out, length (adds (log out.1)))) in Heq.
  vm_compute in Heq. discriminate.
Qed.

Lemma tracks_fetched_for_every_record_witness :
  fetches (log (add_songs_to_playlists (Demo.start ["Road Trip"]) Demo.yellow_twice).1)
    = [Demo.road_trip; Demo.road_trip]
  ∧ adds (log (state_after (Demo.start ["Road Trip"]) Demo.yellow_twice
                 Demo.yellow_twice).1)
    = [(Demo.road_trip, [42%Z])].
Proof.
  destruct (tracks_fetched_for_every_record (Demo.start ["Road Trip"]) Demo.yellow_twice)
    as [(events & Hlog & Hfetches) Hcheck].
  split.
  - rewrite Hlog. exact Hfetches.
  - exact (Hcheck [Demo.row "Road Trip" "Yellow" "Coldplay"]
             (Demo.row "Road Trip" "yellow" "coldplay") [] Demo.road_trip Demo.yellow
             eq_refl eq_refl eq_refl).
Defined.

(** C8 fails as stated. The first record has the padded playlist name
    "Gym " and the second the name "Gym": the mapping has the key "gym" from
    the second, the lookup for the first finds it, and nothing is reported
    unmatched. *)
Lemma padded_name_can_hit :
  strip "Gym " ≠ "Gym "
  ∧ resolved_playlists (Demo.start []) Demo.padded_and_plain !! lower (strip "Gym ")
    = Some {| pl_id := 1; pl_name := "Gym" |}
  ∧ (add_songs_to_playlists (Demo.start []) Demo.padded_and_plain).2 = None
  ∧ adds (log (add_songs_to_playlists (Demo.start []) Demo.padded_and_plain).1)
    = [ ({| pl_id := 1; pl_name := "Gym" |}, [42%Z]);
        ({| pl_id := 1; pl_name := "Gym" |}, [7%Z]) ].
Proof.
  split_and!; try (vm_compute; reflexivity).
  vm_compute. discriminate.
Qed.

Lemma padded_playlist_name_is_missed_witness :
  is_Some (resolved_playlists (Demo.start ["Road Trip"]) Demo.padded_alone !! "gym ")
  ∧ resolved_playlists (Demo.start ["Road Trip"]) Demo.padded_alone !! "gym" = None
  ∧ (state_after (Demo.start ["Road Trip"]) Demo.padded_alone Demo.padded_alone).2
    = [ {| nf_playlist := "Gym"; nf_track := "Yellow"; nf_artist := "Coldplay" |} ].
Proof.
  destruct (padded_playlist_name_is_missed (Demo.start ["Road Trip"]) Demo.padded_alone
              [] [] (Demo.row "Gym " "Yellow" "Coldplay"))
    as (Hkey & Hmiss & Hentries & _).
  - reflexivity.
  - vm_compute. discriminate.
  - intros other Hother. apply list_elem_of_singleton in Hother. subst other.
    vm_compute. discriminate.
  - split_and!; [exact Hkey|exact Hmiss|exact Hentries].
Defined.

Lemma no_add_for_a_listed_track_witness :
  adds (log (state_after (Demo.start ["Road Trip"]) Demo.yellow_twice Demo.yellow_twice).1)
  = adds (log (state_after (Demo.start ["Road Trip"]) Demo.yellow_twice
                 [Demo.row "Road Trip" "Yellow" "Coldplay"]).1).
Proof.
  exact (proj2 (no_add_for_a_listed_track demo_add_lists demo_add_keeps
                  (Demo.start ["Road Trip"]) Demo.yellow_twice)
           [] (Demo.row "Road Trip" "Yellow" "Coldplay")
           [] (Demo.row "Road Trip" "yellow" "coldplay") []
           Demo.road_trip Demo.yellow Demo.yellow
           eq_refl eq_refl eq_refl eq_refl eq_refl eq_refl).
Defined.


Example missing_artist_column_run :
  searches (log (add_songs_to_playlists (Demo.start ["Gym"]) Demo.no_artist_column).1)
    = ["Clocks"; "Ghost Song"]
  ∧ (add_songs_to_playlists (Demo.start ["Gym"]) Demo.no_artist_column).2
    = Some [ {| nf_playlist := "Gym"; nf_track := "Ghost Song"; nf_artist := "" |} ].
Proof. split; vm_compute; reflexivity. Qed.

(** The two scenarios of the specification. *)
Example road_trip_scenario :
  adds (log (add_songs_to_playlists (Demo.start ["Road Trip"])
               [Demo.row "Road Trip" "Yellow" "Coldplay"]).1)
    = [(Demo.road_trip, [42%Z])]
  ∧ (add_songs_to_playlists (Demo.start ["Road Trip"])
       [Demo.row "Road Trip" "Yellow" "Coldplay"]).2 = None.
Proof. split; vm_compute; reflexivity. Qed.

Example gym_scenario :
  (add_songs_to_playlists (Demo.start ["Gym"]) Demo.ghost_song).2
    = Some [ {| nf_playlist := "Gym"; nf_track := "Ghost Song"; nf_artist := "" |} ]
  ∧ adds (log (add_songs_to_playlists (Demo.start ["Gym"]) Demo.ghost_song).1) = []
  ∧ creations (log (add_songs_to_playlists (Demo.start ["Gym"]) Demo.ghost_song).1) = [].
Proof. split_and!; vm_compute; reflexivity. Qed.

(** * Further properties of the script *)

(** ** Library loader *)

Section DedupMore.
Context {A : Type} (key : A → string).

Lemma unmasked_union (seen skip : gset string) (l : list A) :
  unmasked key (skip ∪ seen) l = filter (λ x, key x ∉ skip) (unmasked key seen l).
Proof.
  revert seen. induction l as [|x l IHl]; intros seen; [done|].
  rewrite !masked_cons.
  assert (Hshift : {[key x]} ∪ (skip ∪ seen) = skip ∪ ({[key x]} ∪ seen)) by set_solver.
  rewrite Hshift, IHl.
  destruct (decide (key x ∈ seen)) as [Hseen|Hseen].
  - rewrite decide_True by set_solver. done.
  - destruct (decide (key x ∈ skip)) as [Hskip|Hskip].
    + rewrite decide_True by set_solver. by rewrite filter_cons_False by tauto.
    + rewrite decide_False by set_solver. by rewrite filter_cons_True.
Qed.

Lemma unmasked_app (seen : gset string) (l k : list A) :
  unmasked key seen (l ++ k)
  = unmasked key seen l ++ unmasked key (list_to_set (key <$> l) ∪ seen) k.
Proof.
  revert seen. induction l as [|x l IHl]; intros seen.
  - cbn [app fmap list_fmap list_to_set]. by rewrite (left_id_L ∅ (∪)).
  - cbn [app]. rewrite !masked_cons, IHl, fmap_cons, list_to_set_cons.
    assert (Hshift : list_to_set (key <$> l) ∪ ({[key x]} ∪ seen)
                     = {[key x]} ∪ list_to_set (key <$> l) ∪ seen) by set_solver.
    rewrite Hshift. by destruct (decide (key x ∈ seen)).
Qed.

Lemma unmasked_fresh (seen : gset string) (l : list A) :
  NoDup (key <$> l) →
  (∀ x, x ∈ l → key x ∉ seen) →
  unmasked key seen l = l.
Proof.
  revert seen. induction l as [|x l IHl]; intros seen Hnodup Hfresh; [done|].
  rewrite fmap_cons in Hnodup. apply NoDup_cons in Hnodup as [Hx Hnodup].
  rewrite masked_cons, decide_False by (apply Hfresh; by left).
  f_equal. apply IHl; [done|]. intros y Hy.
  assert (key y ≠ key x).
  { intros Heq. apply Hx. rewrite <-Heq. by apply list_elem_of_fmap_2. }
  assert (key y ∉ seen) by (apply Hfresh; by right).
  set_solver.
Qed.
End DedupMore.

(** X1. The first file takes precedence. The merged frame is the first
    file's rows, deduplicated among themselves, followed by those rows of
    the deduplicated second file whose track name does not occur in the
    first file. *)
Theorem load_library_first_file_wins
    (read_csv : string → option (list Row)) (first second : list Row) :
  read_csv TIDAL_CSV = Some first →
  read_csv SPOTIFY_CSV = Some second →
  load_library read_csv
  = Some (drop_duplicates row_track first
          ++ filter (λ r, row_track r ∉ row_track <$> first)
               (drop_duplicates row_track second)).
Proof.
  intros Hfirst Hsecond. unfold load_library. rewrite Hfirst, Hsecond. cbn.
  rewrite app_nil_r. f_equal.
  change (unmasked row_track ∅ (first ++ second)
          = unmasked row_track ∅ first
            ++ filter (λ r, row_track r ∉ row_track <$> first)
                 (unmasked row_track ∅ second)).
  rewrite unmasked_app, unmasked_union. f_equal.
  apply list_filter_iff. intros r. by rewrite elem_of_list_to_set.
Qed.

Lemma load_library_first_file_wins_witness :
  load_library Demo.read_csv
  = Some (drop_duplicates row_track Demo.tidal_rows
          ++ filter (λ r, row_track r ∉ row_track <$> Demo.tidal_rows)
               (drop_duplicates row_track Demo.spotify_rows)).
Proof.
  apply (load_library_first_file_wins Demo.read_csv Demo.tidal_rows Demo.spotify_rows);
    reflexivity.
Defined.

(** X2. Nothing is lost without a repeat. When no track name occurs twice
    over the two files, the loader returns all their rows, first file
    first. *)
Theorem load_library_without_repeats
    (read_csv : string → option (list Row)) (first second : list Row) :
  read_csv TIDAL_CSV = Some first →
  read_csv SPOTIFY_CSV = Some second →
  NoDup (row_track <$> first ++ second) →
  load_library read_csv = Some (first ++ second).
Proof.
  intros Hfirst Hsecond Hnodup. unfold load_library. rewrite Hfirst, Hsecond. cbn.
  rewrite app_nil_r. f_equal.
  apply (unmasked_fresh row_track ∅ (first ++ second) Hnodup). set_solver.
Qed.

Lemma load_library_without_repeats_witness :
  load_library (λ name, if String.eqb name TIDAL_CSV then Some Demo.tidal_rows
                         else Some Demo.ghost_song)
  = Some (Demo.tidal_rows ++ Demo.ghost_song).
Proof.
  apply load_library_without_repeats; [reflexivity|reflexivity|].
  by_compute.
Defined.

(** ** Credential store *)

Section CredentialStoreMore.
Context {datetime : Type} (epoch_seconds : datetime → Z).
Context (json_dumps : json → string) (json_loads : string → option json).



Lemma text_nonempty (text : string) :
  (0 <? String.length text)%nat = true ↔ text ≠ "".
Proof. destruct text; cbn; split; done. Qed.


(** X3. [load_token] returns a record exactly when the token file exists,
    is not empty, parses, and the parsed document contains both
    "access_token" and "expiry_time"; the record is the parsed document. *)
Theorem load_token_returns_iff (files : gmap string string) (doc : json) :
  load_token json_loads files = Ok (Some doc)
  ↔ ∃ text,
      files !! TOKEN_FILE = Some text
      ∧ text ≠ ""
      ∧ json_loads text = Some doc
      ∧ py_in "access_token" doc = Ok true
      ∧ py_in "expiry_time" doc = Ok true.
Proof.
  unfold load_token. split.
  - destruct (files !! TOKEN_FILE) as [text|] eqn:Hfile; [|done].
    destruct (0 <? String.length text)%nat eqn:Hlen; [|done].
    apply text_nonempty in Hlen.
    destruct (json_loads text) as [doc'|] eqn:Hload; [|done].
    destruct (py_in "access_token" doc') as [[|]|] eqn:Haccess; try done.
    destruct (py_in "expiry_time" doc') as [[|]|] eqn:Hexpiry; try done.
    intros [= <-]. by exists text.
  - intros (text & -> & Htext & -> & -> & ->).
    apply text_nonempty in Htext. by rewrite Htext.
Qed.


(** X5. [save_token] writes the token file and nothing else, and what it
    writes replaces what was there: saving a second session over a first
    gives the files that saving the second alone gives. It raises exactly
    when the session has no expiry time. *)
Theorem save_token_overwrites
    (first second : Session datetime) (files files1 : gmap string string) :
  save_token epoch_seconds json_dumps first files = Ok files1 →
  (∀ path, path ≠ TOKEN_FILE → files1 !! path = files !! path)
  ∧ save_token epoch_seconds json_dumps second files1
    = save_token epoch_seconds json_dumps second files
  ∧ (is_Some (expiry_time second)
     ↔ ∃ files2, save_token epoch_seconds json_dumps second files1 = Ok files2).
Proof.
  unfold save_token. destruct (expiry_time first) as [expiry1|]; [|done].
  intros [= <-]. split_and!.
  - intros path Hpath. by rewrite lookup_insert_ne.
  - destruct (expiry_time second); [|done]. by rewrite insert_insert_eq.
  - destruct (expiry_time second); split; eauto; intros [? ?]; done.
Qed.
End CredentialStoreMore.

Lemma save_token_overwrites_witness :
  (∀ path, path ≠ TOKEN_FILE
     → <[TOKEN_FILE := FlatJson.dumps
                          (token_data_of Demo.epoch_seconds Demo.session 1700000000123456%Z)]>
         DemoLogin.corrupt_files !! path
       = DemoLogin.corrupt_files !! path)
  ∧ save_token Demo.epoch_seconds FlatJson.dumps Demo.session
      (<[TOKEN_FILE := FlatJson.dumps
                         (token_data_of Demo.epoch_seconds Demo.session 1700000000123456%Z)]>
         DemoLogin.corrupt_files)
    = save_token Demo.epoch_seconds FlatJson.dumps Demo.session DemoLogin.corrupt_files
  ∧ (is_Some (expiry_time Demo.session)
     ↔ ∃ files2,
         save_token Demo.epoch_seconds FlatJson.dumps Demo.session
           (<[TOKEN_FILE := FlatJson.dumps
                              (token_data_of Demo.epoch_seconds Demo.session
                                 1700000000123456%Z)]>
              DemoLogin.corrupt_files)
         = Ok files2).
Proof.
  apply (save_token_overwrites Demo.epoch_seconds FlatJson.dumps Demo.session Demo.session
           DemoLogin.corrupt_files).
  reflexivity.
Defined.

(** The token file of the double, a file that is no JSON and a file that
    holds a number. *)
Example load_token_demo :
  load_token FlatJson.loads DemoLogin.corrupt_files = Ok None
  ∧ load_token FlatJson.loads DemoLogin.number_files = Raise TypeError
  ∧ load_token FlatJson.loads ∅ = Ok None
  ∧ ∃ doc, load_token FlatJson.loads DemoLogin.valid_files = Ok (Some doc)
           ∧ json_get "refresh_token" doc = Some (JStr "rt-1").
Proof. split_and!; try (vm_compute; reflexivity). eexists. split; vm_compute; reflexivity. Qed.

(** ** Playlist resolver *)

Lemma listings_app (l k : list Event) : listings (l ++ k) = listings l ++ listings k.
Proof. apply omap_app. Qed.

Lemma skips_app (l k : list Event) : skips (l ++ k) = skips l ++ skips k.
Proof. apply omap_app. Qed.

Lemma py_dict_snoc {V} (items : list (string * V)) (k : string) (v : V) :
  py_dict (items ++ [(k, v)]) = <[k := v]> (py_dict items).
Proof. unfold py_dict. by rewrite foldl_snoc. Qed.

Lemma filter_none {A} (P : A → Prop) `{∀ x, Decision (P x)} (l : list A) :
  (∀ x, x ∈ l → ¬ P x) → filter P l = [].
Proof.
  induction l as [|x l IHl]; intros Hnone; [done|].
  rewrite filter_cons_False by (apply Hnone; by left).
  apply IHl. intros y Hy. apply Hnone. by right.
Qed.

Section ResolverMore.
Context `{PyStr} `{Remote R}.

Lemma replay_app (l k : list Event) (r : R) : replay (l ++ k) r = replay k (replay l r).
Proof. unfold replay. by rewrite foldl_app. Qed.

(** Of the playlists with one lowercased name, the dictionary of the
    existing playlists keeps the one listed last. *)
Lemma existing_playlists_last (r : R) (k : string) :
  existing_playlists_of r !! k
  = last (filter (λ p, lower (pl_name p) = k) (user_playlists r)).
Proof.
  unfold existing_playlists_of.
  induction (user_playlists r) as [|p l IHl] using rev_ind; [done|].
  rewrite fmap_app, filter_app. cbn [fmap list_fmap].
  rewrite py_dict_snoc, filter_cons, filter_nil.
  destruct (decide (lower (pl_name p) = k)) as [Heq|Hne].
  - by rewrite Heq, lookup_insert_eq, last_snoc.
  - by rewrite lookup_insert_ne, app_nil_r.
Qed.

Lemma resolve_names_existing (existing : gmap string Playlist) (names : list string)
    (acc : World R * gmap string Playlist) (name : string) (p : Playlist) :
  existing !! lower name = Some p →
  name ∈ names ∨ acc.2 !! lower name = Some p →
  (foldl (resolve_name existing) acc names).2 !! lower name = Some p.
Proof.
  intros Hex. revert acc. induction names as [|n names IHnames]; intros [w playlists] Hin.
  - destruct Hin as [Hin|Hin]; [by apply elem_of_nil in Hin|done].
  - cbn [foldl]. apply IHnames.
    destruct (decide (lower n = lower name)) as [Heq|Hne].
    + right. unfold resolve_name. rewrite Heq, Hex. cbn. apply lookup_insert_eq.
    + destruct Hin as [Hin|Hin].
      * apply elem_of_cons in Hin as [->|Hin]; [done|by left].
      * right. unfold resolve_name.
        destruct (existing !! lower n);
          [|destruct (create_playlist (remote w) n _)];
          cbn; by rewrite lookup_insert_ne.
Qed.

(** What the loop of the resolver does to the remote state: what its calls
    do, in order. *)
Lemma resolve_names_replay (existing : gmap string Playlist) (names : list string)
    (w : World R) (playlists : gmap string Playlist) :
  ∃ events,
    log (foldl (resolve_name existing) (w, playlists) names).1 = log w ++ events
    ∧ remote (foldl (resolve_name existing) (w, playlists) names).1
      = replay events (remote w)
    ∧ listings events = []
    ∧ skips events = [].
Proof.
  revert w playlists. induction names as [|name names IHnames]; intros w playlists.
  - exists []. cbn. by rewrite app_nil_r.
  - cbn [foldl]. unfold resolve_name at 2 4.
    destruct (existing !! lower name) as [p|] eqn:Hex.
    + destruct (IHnames (emit (Printed (PlaylistExists name)) w)
                  (<[lower name := p]> playlists)) as (events & Hlog & Hremote & Hl & Hs).
      exists (Printed (PlaylistExists name) :: events).
      rewrite Hlog, Hremote. cbn [emit log remote]. rewrite <-(assoc_L (++)).
      split_and!; done.
    + destruct (create_playlist (remote w) name "Playlist created from CSV file")
        as [r new_playlist] eqn:Hcreate.
      match goal with
      | |- context [foldl _ (?w', ?pl') names] =>
          destruct (IHnames w' pl') as (events & Hlog & Hremote & Hl & Hs)
      end.
      exists (CallCreate name "Playlist created from CSV file"
                :: Printed (PlaylistCreated name) :: events).
      rewrite Hlog, Hremote. cbn [emit log remote]. rewrite <-!(assoc_L (++)).
      split_and!; try done.
      unfold replay. cbn [foldl]. by rewrite Hcreate.
Qed.

Lemma replay_quiet (events : list Event) (r : R) :
  creations events = [] → adds events = [] → replay events r = r.
Proof.
  revert r. induction events as [|e events IHevents]; intros r Hc Ha; [done|].
  destruct e; cbn in Hc, Ha; try done; by apply IHevents.
Qed.

Lemma get_or_create_playlists_replay (w : World R) (playlist_names : list string) :
  ∃ events,
    log (get_or_create_playlists w playlist_names).1 = log w ++ events
    ∧ remote (get_or_create_playlists w playlist_names).1 = replay events (remote w)
    ∧ listings events = [()]
    ∧ skips events = [].
Proof.
  unfold get_or_create_playlists.
  destruct (resolve_names_replay (existing_playlists_of (remote w)) playlist_names
              (emit CallPlaylists w) ∅) as (events & Hlog & Hremote & Hl & Hs).
  exists (CallPlaylists :: events).
  rewrite Hlog, Hremote. cbn [emit log remote]. rewrite <-(assoc_L (++)).
  split_and!; try done.
  change (listings (CallPlaylists :: events)) with (() :: listings events).
  by rewrite Hl.
Qed.

(** X6. A requested name whose lowercased form is the lowercased name of
    playlists of the account is mapped to the one of them that the account
    lists last; no playlist is created for it. *)
Theorem existing_playlist_is_reused
    (w : World R) (playlist_names : list string) (name : string) (p : Playlist) :
  name ∈ playlist_names →
  last (filter (λ q, lower (pl_name q) = lower name) (user_playlists (remote w))) = Some p →
  (get_or_create_playlists w playlist_names).2 !! lower name = Some p
  ∧ ∀ events,
      log (get_or_create_playlists w playlist_names).1 = log w ++ events →
      name ∉ creations events.
Proof.
  intros Hin Hlast. rewrite <-existing_playlists_last in Hlast. split.
  - unfold get_or_create_playlists. apply resolve_names_existing; [done|by left].
  - intros events Hlog.
    destruct (get_or_create_playlists_spec w playlist_names)
      as (events' & Hlog' & _ & Hcr & _).
    rewrite Hlog in Hlog'. apply app_inv_head in Hlog' as ->.
    rewrite Hcr, list_elem_of_filter. intros [Hnew _].
    apply existing_playlists_None in Hnew. congruence.
Qed.

(** X7. When every requested name has a playlist on the account, whatever
    the case of its letters, the resolver creates nothing and leaves the
    remote state as it was: its only call is the listing. *)
Theorem nothing_created_when_all_exist (w : World R) (playlist_names : list string) :
  (∀ name, name ∈ playlist_names →
     lower name ∈ (λ p, lower (pl_name p)) <$> user_playlists (remote w)) →
  remote (get_or_create_playlists w playlist_names).1 = remote w
  ∧ ∃ events,
      log (get_or_create_playlists w playlist_names).1 = log w ++ events
      ∧ creations events = []
      ∧ listings events = [()].
Proof.
  intros Hall.
  destruct (get_or_create_playlists_spec w playlist_names)
    as (events & Hlog & _ & Hcr & _ & Ha & _).
  destruct (get_or_create_playlists_replay w playlist_names)
    as (events' & Hlog' & Hremote & Hl & _).
  rewrite Hlog in Hlog'. apply app_inv_head in Hlog' as <-.
  assert (Hnone : creations events = []).
  { rewrite Hcr. apply filter_none. intros name Hname Hnew. by apply Hnew, Hall. }
  split.
  - rewrite Hremote. by apply replay_quiet.
  - by exists events.
Qed.
End ResolverMore.

(** ** Import engine *)

Section EngineMore.
Context `{PyStr} `{Remote R}.

(** The outcome of one record: an unmatched entry, an add call or a skip,
    and never two of them. *)
Lemma process_row_account (playlists : gmap string Playlist)
    (st : World R * list Unmatched) (row : Row) :
  ∃ events entries,
    log (process_row playlists st row).1 = log st.1 ++ events
    ∧ (process_row playlists st row).2 = st.2 ++ entries
    ∧ remote (process_row playlists st row).1 = replay events (remote st.1)
    ∧ length entries + length (adds events) + length (skips events) = 1
    ∧ length (searches events) = length (fetches events)
    ∧ (length (adds events) + length (skips events) ≤ length (searches events))%nat
    ∧ creations events = [] ∧ listings events = []
    ∧ Forall (λ a, playlists !! lower (playlist_name_of row) = Some a.1
                   ∧ ∃ id, a.2 = [id]) (adds events).
Proof.
  destruct st as [w not_found_tracks].
  destruct (playlists !! lower (playlist_name_of row)) as [playlist|] eqn:Hlookup.
  - destruct (first_track (search (remote w) (search_query_of row)))
      as [track|] eqn:Htrack.
    + destruct (decide (lower (tr_name track) ∈ listed_names (remote w) playlist))
        as [Hin|Hout].
      * rewrite (process_row_present _ _ _ _ _ _ Hlookup Htrack Hin).
        eexists _, []. cbn [fst snd log remote].
        split_and!; [done|by rewrite app_nil_r|done|cbn; lia..|done|done|by constructor].
      * rewrite (process_row_added _ _ _ _ _ _ Hlookup Htrack Hout).
        eexists _, []. cbn [fst snd log remote].
        split_and!; [done|by rewrite app_nil_r|done|cbn; lia..|done|done|].
        cbn. repeat constructor. by exists (tr_id track).
    + rewrite (process_row_no_track _ _ _ _ _ Hlookup Htrack).
      eexists _, _. cbn [fst snd log remote].
      split_and!; [done|done|done|cbn; lia..|done|done|by constructor].
  - rewrite (process_row_absent _ _ _ _ Hlookup).
    eexists _, _. cbn [fst snd log remote].
    split_and!; [done|done|done|cbn; lia..|done|done|by constructor].
Qed.

Lemma run_rows_account (playlists : gmap string Playlist)
    (rows : list Row) (st : World R * list Unmatched) :
  ∃ events entries,
    log (run_rows playlists st rows).1 = log st.1 ++ events
    ∧ (run_rows playlists st rows).2 = st.2 ++ entries
    ∧ remote (run_rows playlists st rows).1 = replay events (remote st.1)
    ∧ length rows = length entries + length (adds events) + length (skips events)
    ∧ length (searches events) = length (fetches events)
    ∧ (length (adds events) + length (skips events) ≤ length (searches events))%nat
    ∧ creations events = [] ∧ listings events = []
    ∧ Forall (λ a, ∃ row, row ∈ rows
                          ∧ playlists !! lower (playlist_name_of row) = Some a.1
                          ∧ ∃ id, a.2 = [id]) (adds events).
Proof.
  revert st. induction rows as [|row rows IHrows]; intros st.
  - exists [], []. cbn. rewrite !app_nil_r. split_and!; done.
  - cbn [run_rows foldl].
    destruct (process_row_account playlists st row)
      as (ev1 & en1 & Hlog1 & Hnf1 & Hr1 & Hone1 & Hsf1 & Hle1 & Hc1 & Hl1 & Ha1).
    destruct (IHrows (process_row playlists st row))
      as (ev2 & en2 & Hlog2 & Hnf2 & Hr2 & Hone2 & Hsf2 & Hle2 & Hc2 & Hl2 & Ha2).
    exists (ev1 ++ ev2), (en1 ++ en2). unfold run_rows in *.
    rewrite Hlog2, Hlog1, Hnf2, Hnf1, Hr2, Hr1, !(assoc_L (++)), replay_app.
    rewrite searches_app, fetches_app, adds_app, skips_app, creations_app, listings_app.
    rewrite Hc1, Hc2, Hl1, Hl2, !length_app. cbn [length].
    split_and!; try done; try lia.
    apply Forall_app. split.
    + eapply Forall_impl; [exact Ha1|]. intros a [Hp Hid]. exists row.
      split_and!; [by left|done..].
    + eapply Forall_impl; [exact Ha2|]. intros a (row' & Hrow' & Hp & Hid). exists row'.
      split_and!; [by right|done..].
Qed.

(** The whole run: its log, its report and the remote state it leaves. *)
Lemma add_songs_to_playlists_account (w : World R) (song_data : list Row) :
  ∃ events entries,
    log (add_songs_to_playlists w song_data).1 = log w ++ events
    ∧ (add_songs_to_playlists w song_data).2
      = match entries with [] => None | _ => Some entries end
    ∧ remote (add_songs_to_playlists w song_data).1 = replay events (remote w)
    ∧ listings events = [()]
    ∧ creations events
      = filter (λ name, lower name ∉ (λ p, lower (pl_name p)) <$> user_playlists (remote w))
          (unique (row_playlist <$> song_data))
    ∧ length song_data = length entries + length (adds events) + length (skips events)
    ∧ length (searches events) = length (fetches events)
    ∧ (length (adds events) + length (skips events) ≤ length (searches events))%nat
    ∧ Forall (λ a, ∃ row, row ∈ song_data
                          ∧ resolved_playlists w song_data !! lower (playlist_name_of row)
                            = Some a.1
                          ∧ ∃ id, a.2 = [id]) (adds events).
Proof.
  rewrite add_songs_to_playlists_unfold. unfold state_after.
  destruct (get_or_create_playlists_spec w (unique (row_playlist <$> song_data)))
    as (ev0 & Hlog0 & _ & Hc0 & Hs0 & Ha0 & Hf0).
  destruct (get_or_create_playlists_replay w (unique (row_playlist <$> song_data)))
    as (ev0' & Hlog0' & Hr0 & Hl0 & Hk0).
  rewrite Hlog0 in Hlog0'. apply app_inv_head in Hlog0' as <-.
  destruct (run_rows_account (resolved_playlists w song_data) song_data
              ((get_or_create_playlists w (unique (row_playlist <$> song_data))).1, []))
    as (ev1 & entries & Hlog1 & Hnf1 & Hr1 & Hone & Hsf & Hle & Hc1 & Hl1 & Ha1).
  cbn [fst snd] in Hlog1, Hnf1, Hr1. rewrite Hlog0 in Hlog1. rewrite Hr0 in Hr1.
  destruct (run_rows _ _ song_data) as [w2 not_found_tracks].
  cbn [fst snd] in *. subst not_found_tracks.
  assert (Hcommon : ∀ last, skips [Printed last] = [] →
    listings (ev0 ++ ev1 ++ [Printed last]) = [()]
    ∧ creations (ev0 ++ ev1 ++ [Printed last])
      = filter (λ name, lower name ∉ (λ p, lower (pl_name p)) <$> user_playlists (remote w))
          (unique (row_playlist <$> song_data))
    ∧ length song_data
      = length entries + length (adds (ev0 ++ ev1 ++ [Printed last]))
        + length (skips (ev0 ++ ev1 ++ [Printed last]))
    ∧ length (searches (ev0 ++ ev1 ++ [Printed last]))
      = length (fetches (ev0 ++ ev1 ++ [Printed last]))
    ∧ (length (adds (ev0 ++ ev1 ++ [Printed last]))
       + length (skips (ev0 ++ ev1 ++ [Printed last]))
       ≤ length (searches (ev0 ++ ev1 ++ [Printed last])))%nat
    ∧ adds (ev0 ++ ev1 ++ [Printed last]) = adds ev1
    ∧ replay (ev0 ++ ev1 ++ [Printed last]) (remote w) = remote w2).
  { intros last Hskip_last.
    rewrite !listings_app, !creations_app, !adds_app, !skips_app, !searches_app,
      !fetches_app, !replay_app.
    rewrite Hl0, Hl1, Hc0, Hc1, Hs0, Ha0, Hf0, Hk0, Hskip_last, Hr1.
    cbn [app listings creations adds searches fetches omap list_omap length].
    rewrite !app_nil_r. split_and!; first [done|lia]. }
  destruct entries as [|e es].
  - exists (ev0 ++ ev1 ++ [Printed AllAdded]), [].
    destruct (Hcommon AllAdded eq_refl) as (? & ? & ? & ? & ? & Hadds & Hreplay).
    cbn [app emit log remote fst snd]. rewrite Hlog1, Hreplay, <-!(assoc_L (++)).
    split_and!; try done. by rewrite Hadds.
  - exists (ev0 ++ ev1 ++ [Printed SavedMissing]), (e :: es).
    destruct (Hcommon SavedMissing eq_refl) as (? & ? & ? & ? & ? & Hadds & Hreplay).
    cbn [app emit log remote fst snd]. rewrite Hlog1, Hreplay, <-!(assoc_L (++)).
    split_and!; try done. by rewrite Hadds.
Qed.

Lemma unique_NoDup (values : list string) : NoDup (unique values).
Proof.
  pose proof (drop_duplicates_NoDup id values) as Hnodup.
  by rewrite list_fmap_id in Hnodup.
Qed.

(** X8. A run lists the playlists of the account once. The playlists it
    creates are created under playlist names of the records as they stand
    in the frame, untrimmed, no name twice, and only names whose lowercased
    form no playlist of the account has. *)
Theorem one_listing_and_distinct_creations (w : World R) (song_data : list Row) :
  ∃ events,
    log (add_songs_to_playlists w song_data).1 = log w ++ events
    ∧ listings events = [()]
    ∧ NoDup (creations events)
    ∧ ∀ name, name ∈ creations events →
        name ∈ row_playlist <$> song_data
        ∧ lower name ∉ (λ p, lower (pl_name p)) <$> user_playlists (remote w).
Proof.
  destruct (add_songs_to_playlists_account w song_data)
    as (events & entries & Hlog & _ & _ & Hl & Hc & _).
  exists events. split_and!; [done..| |].
  - rewrite Hc. apply NoDup_filter, unique_NoDup.
  - intros name. rewrite Hc, list_elem_of_filter, unique_elem_of. tauto.
Qed.

(** X9. In a run, a record whose search returns tracks and whose first
    track has a lowercased name that the playlist does not list issues one
    add call, for the playlist resolved for it and with the id of that
    track alone; it adds no unmatched entry, and the remote state becomes
    what the add makes of it. *)
Theorem unlisted_track_is_added
    (w : World R) (song_data pre post : list Row) (row : Row) (playlist : Playlist)
    (d : gmap string (list Track)) (track : Track) (others : list Track) :
  song_data = pre ++ row :: post →
  resolved_playlists w song_data !! lower (strip (row_playlist row)) = Some playlist →
  search (remote (state_after w song_data pre).1) (search_query_of row) = Some d →
  d !! "tracks" = Some (track :: others) →
  lower (tr_name track) ∉ listed_names (remote (state_after w song_data pre).1) playlist →
  (state_after w song_data (pre ++ [row])).2 = (state_after w song_data pre).2
  ∧ log (state_after w song_data (pre ++ [row])).1
    = log (state_after w song_data pre).1
      ++ [Printed (Processing (pl_name playlist)); CallTracks playlist;
          CallSearch (search_query_of row); CallAdd playlist [tr_id track];
          Printed (Added (tr_name track) (tr_artist track) (pl_name playlist))]
  ∧ remote (state_after w song_data (pre ++ [row])).1
    = playlist_add (remote (state_after w song_data pre).1) playlist [tr_id track].
Proof.
  intros _ Hsome Hsearch Hd Hout. rewrite state_after_snoc.
  destruct (state_after w song_data pre) as [w' not_found_tracks].
  cbn [fst] in Hsearch, Hout.
  assert (Htrack : first_track (search (remote w') (search_query_of row)) = Some track).
  { rewrite Hsearch. by eapply first_track_head. }
  by rewrite (process_row_added _ _ _ _ _ _ Hsome Htrack Hout).
Qed.

(** X10. Every record of a run has exactly one outcome: it is reported
    unmatched, or an add call is made for it, or it is skipped as already
    present. The track list is fetched exactly once for each search, and
    adds and skips only follow a search. *)
Theorem every_record_has_one_outcome (w : World R) (song_data : list Row) :
  ∃ events entries,
    log (add_songs_to_playlists w song_data).1 = log w ++ events
    ∧ (add_songs_to_playlists w song_data).2
      = match entries with [] => None | _ => Some entries end
    ∧ length song_data = length entries + length (adds events) + length (skips events)
    ∧ length (searches events) = length (fetches events)
    ∧ (length (adds events) + length (skips events) ≤ length (searches events))%nat.
Proof.
  destruct (add_songs_to_playlists_account w song_data)
    as (events & entries & Hlog & Hreport & _ & _ & _ & Hone & Hsf & Hle & _).
  by exists events, entries.
Qed.

(** X11. Every add call of a run goes to the playlist that the mapping
    holds for the trimmed, lowercased playlist name of some record, and
    carries exactly one track id. *)
Theorem adds_go_to_resolved_playlists (w : World R) (song_data : list Row) :
  ∃ events,
    log (add_songs_to_playlists w song_data).1 = log w ++ events
    ∧ ∀ playlist track_ids,
        (playlist, track_ids) ∈ adds events →
        (∃ row, row ∈ song_data
                ∧ resolved_playlists w song_data !! lower (strip (row_playlist row))
                  = Some playlist)
        ∧ ∃ id, track_ids = [id].
Proof.
  destruct (add_songs_to_playlists_account w song_data)
    as (events & entries & Hlog & _ & _ & _ & _ & _ & _ & _ & Hadds).
  exists events. split; [done|]. intros playlist track_ids Hin.
  rewrite Forall_forall in Hadds.
  destruct (Hadds _ Hin) as (row & Hrow & Hp & Hid). split; [by exists row|done].
Qed.

(** X12. In a run, a record can only miss the mapping through the
    whitespace around its playlist name: when the lookup of a record of the
    frame finds no playlist, trimming changes its playlist name. A record
    whose playlist name has no surrounding whitespace always finds its
    playlist. *)
Theorem unpadded_playlist_name_is_found (w : World R) (song_data : list Row) (row : Row) :
  row ∈ song_data →
  strip (row_playlist row) = row_playlist row →
  is_Some (resolved_playlists w song_data !! lower (strip (row_playlist row))).
Proof.
  intros Hrow Hstrip. rewrite Hstrip. apply resolved_playlists_dom. by exists row.
Qed.

(** X13. The report of a run is never empty: it is written only when some
    record was unmatched, and then its entries are the trimmed fields of
    records, in the order of the records. *)
Theorem report_is_never_empty (w : World R) (song_data : list Row) (entries : list Unmatched) :
  (add_songs_to_playlists w song_data).2 = Some entries →
  entries ≠ []
  ∧ entries `sublist_of` unmatched_of <$> song_data
  ∧ entries = (state_after w song_data song_data).2.
Proof.
  intros Hreport.
  destruct (add_songs_to_playlists_trace w song_data)
    as (events & entries' & _ & Hreport' & _ & Hsub & _).
  rewrite Hreport' in Hreport.
  assert (entries' = entries) as -> by (destruct entries'; congruence).
  split_and!; [by destruct entries|done|].
  rewrite add_songs_to_playlists_unfold in Hreport'.
  destruct (state_after w song_data song_data).2; destruct entries; cbn in Hreport'; congruence.
Qed.

End EngineMore.

(** ** Session authenticator *)

Section Authenticator.
Context {Sess datetime : Type} `{!Login Sess datetime}.
Context (epoch_seconds : datetime → Z).
Context (json_dumps : json → string) (json_loads : string → option json).
Context (int_of_text : string → option Z).

Local Abbreviation authenticate' :=
  (authenticate epoch_seconds json_dumps json_loads int_of_text).

(** The part of [authenticate] after the stored token has been given up. *)
Lemma clear_token_file (files : gmap string string) :
  (if bool_decide (is_Some (files !! TOKEN_FILE)) then delete TOKEN_FILE files else files)
  = delete TOKEN_FILE files.
Proof.
  case_bool_decide as Hfile; [done|].
  symmetry. apply delete_id. by apply eq_None_not_Some.
Qed.

Lemma authenticate_unfold (files : gmap string string) :
  authenticate' files
  = match load_token json_loads files with
    | Raise e => Crashes (Uncaught e) files
    | Ok token_data =>
        let attempt :=
          match token_data with
          | Some token_data =>
              if py_truthy token_data
              then try_stored int_of_text new_session token_data
              else (new_session, false)
          | None => (new_session, false)
          end in
        if attempt.2 then Returns attempt.1 files
        else
          match login_oauth_simple attempt.1 with
          | None => Crashes LoginRaised (delete TOKEN_FILE files)
          | Some session =>
              match expiry_time (tokens_of session) with
              | Some expiry =>
                  Returns session
                    (<[TOKEN_FILE :=
                         json_dumps (token_data_of epoch_seconds (tokens_of session) expiry)]>
                       files)
              | None => Crashes (Uncaught AttributeError) (delete TOKEN_FILE files)
              end
          end
    end.
Proof.
  unfold authenticate. rewrite clear_token_file.
  destruct (load_token json_loads files) as [token_data|e]; [|done].
  cbv zeta.
  destruct (match token_data with
            | Some token_data =>
                if py_truthy token_data
                then try_stored int_of_text new_session token_data
                else (new_session, false)
            | None => (new_session, false)
            end) as [session logged_in].
  cbn [fst snd]. destruct logged_in; [done|].
  destruct (login_oauth_simple session) as [session'|]; [|done].
  unfold save_token. destruct (expiry_time (tokens_of session')); [|done].
  by rewrite insert_delete_eq.
Qed.

Lemma load_token_misses (files : gmap string string) :
  files !! TOKEN_FILE = None
  ∨ files !! TOKEN_FILE = Some ""
  ∨ (∃ text, files !! TOKEN_FILE = Some text ∧ json_loads text = None) →
  load_token json_loads files = Ok None.
Proof.
  unfold load_token. intros [->|[->|(text & -> & ->)]]; [done..|].
  by destruct (0 <? String.length text)%nat.
Qed.

Lemma authenticate_frame (files : gmap string string) (path : string) :
  path ≠ TOKEN_FILE →
  files_of (authenticate' files) !! path = files !! path.
Proof.
  intros Hpath. rewrite authenticate_unfold.
  destruct (load_token json_loads files) as [token_data|e]; [|done].
  cbv zeta.
  match goal with |- context [if ?a.2 then _ else _] => destruct a as [session logged_in] end.
  cbn [fst snd]. destruct logged_in; [done|].
  destruct (login_oauth_simple session) as [session'|]; cbn.
  - destruct (expiry_time (tokens_of session')); cbn.
    + by rewrite lookup_insert_ne.
    + by rewrite lookup_delete_ne.
  - by rewrite lookup_delete_ne.
Qed.

(** X15. A stored token that restores and passes the login check is used
    as it is: the session restored from its four fields is returned, no
    login is made and the files are left untouched. *)
Theorem authenticate_reuses_valid_token
    (files : gmap string string) (fields : list (string * json))
    (kind access refresh expiry : json) (seconds : Z) (session : Sess) :
  load_token json_loads files = Ok (Some (JObj fields)) →
  assoc "token_type" fields = Some kind →
  assoc "access_token" fields = Some access →
  assoc "refresh_token" fields = Some refresh →
  assoc "expiry_time" fields = Some expiry →
  py_int int_of_text expiry = Some seconds →
  load_oauth_session new_session kind access refresh seconds = (session, false) →
  check_login session = true →
  authenticate' files = Returns session files.
Proof.
  intros Hload Hkind Haccess Hrefresh Hexpiry Hint Hrestore Hcheck.
  rewrite authenticate_unfold, Hload. cbv zeta.
  assert (Htruthy : py_truthy (JObj fields) = true) by (by destruct fields).
  rewrite Htruthy. unfold try_stored. cbn [json_get].
  rewrite Hkind, Haccess, Hrefresh, Hexpiry, Hint, Hrestore. cbn [fst snd].
  by rewrite Hcheck.
Qed.

(** X16. Whatever happens, [authenticate] touches no file but the token
    file. *)
Theorem authenticate_touches_only_the_token_file (files : gmap string string) (path : string) :
  path ≠ TOKEN_FILE →
  files_of (authenticate' files) !! path = files !! path.
Proof. apply authenticate_frame. Qed.

(** X17. A session that [authenticate] returns is either one restored from
    a stored record that passed the login check, with the files left as
    they were, or one that went through the login and whose token is what
    the token file now holds. The validity of a session after a login is
    not checked here. *)
Theorem authenticate_returns (files files' : gmap string string) (session : Sess) :
  authenticate' files = Returns session files' →
  (check_login session = true ∧ files' = files
   ∧ ∃ doc, load_token json_loads files = Ok (Some doc))
  ∨ (∃ before expiry,
       login_oauth_simple before = Some session
       ∧ expiry_time (tokens_of session) = Some expiry
       ∧ files' = <[TOKEN_FILE :=
                      json_dumps (token_data_of epoch_seconds (tokens_of session) expiry)]>
                    files).
Proof.
  rewrite authenticate_unfold.
  destruct (load_token json_loads files) as [token_data|e] eqn:Hload; [|done].
  cbv zeta.
  match goal with |- context [if ?a.2 then _ else _] => destruct a as [s logged_in] eqn:Htry end.
  cbn [fst snd]. destruct logged_in.
  - intros [= <- <-]. left.
    destruct token_data as [doc|]; [|done].
    destruct (py_truthy doc); [|done].
    split_and!; [|done|by exists doc].
    unfold try_stored in Htry.
    repeat match type of Htry with
           | match ?x with _ => _ end = _ => destruct x eqn:?; try done
           end.
    by injection Htry as <- <-.
  - destruct (login_oauth_simple s) as [session'|] eqn:Hlogin; [|done].
    destruct (expiry_time (tokens_of session')) as [expiry|] eqn:Hexpiry; [|done].
    intros [= <- <-]. right. by exists s, expiry.
Qed.


(** X19. Without a usable token file, that is when it is missing, empty or
    does not parse, [authenticate] logs in from a fresh session and writes
    the token of the session it got. *)
Theorem authenticate_logs_in_on_a_miss
    (files : gmap string string) (session : Sess) (expiry : datetime) :
  files !! TOKEN_FILE = None
  ∨ files !! TOKEN_FILE = Some ""
  ∨ (∃ text, files !! TOKEN_FILE = Some text ∧ json_loads text = None) →
  login_oauth_simple new_session = Some session →
  expiry_time (tokens_of session) = Some expiry →
  authenticate' files
  = Returns session
      (<[TOKEN_FILE := json_dumps (token_data_of epoch_seconds (tokens_of session) expiry)]>
         files).
Proof.
  intros Hmiss Hlogin Hexpiry.
  rewrite authenticate_unfold, (load_token_misses files Hmiss). cbv zeta. cbn [fst snd].
  by rewrite Hlogin, Hexpiry.
Qed.

(** X20. [load_token] accepts a record that has an access token and an
    expiry time, but the restoration reads four fields. A stored record
    without "token_type" or without "refresh_token" is given up quietly: the
    failed subscript is caught, and [authenticate] logs in from the fresh
    session and replaces the token file. *)
Theorem authenticate_gives_up_a_partial_record
    (files : gmap string string) (doc : json) (session : Sess) (expiry : datetime) :
  load_token json_loads files = Ok (Some doc) →
  json_get "token_type" doc = None ∨ json_get "refresh_token" doc = None →
  login_oauth_simple new_session = Some session →
  expiry_time (tokens_of session) = Some expiry →
  authenticate' files
  = Returns session
      (<[TOKEN_FILE := json_dumps (token_data_of epoch_seconds (tokens_of session) expiry)]>
         files).
Proof.
  intros Hload Hpartial Hlogin Hexpiry.
  rewrite authenticate_unfold, Hload. cbv zeta.
  assert (Htry : (if py_truthy doc then try_stored int_of_text new_session doc
                  else (new_session, false)) = (new_session, false)).
  { destruct (py_truthy doc); [|done]. unfold try_stored.
    destruct Hpartial as [-> | Hrefresh]; [done|].
    rewrite Hrefresh.
    by destruct (json_get "token_type" doc), (json_get "access_token" doc). }
  rewrite Htry. cbn [fst snd]. by rewrite Hlogin, Hexpiry.
Qed.
End Authenticator.

(** ** The script *)

Section ScriptMore.
Context `{PyStr} `{Remote R} {Sess datetime : Type} `{!Login Sess datetime}.
Context (epoch_seconds : datetime → Z).
Context (json_dumps : json → string) (json_loads : string → option json).
Context (int_of_text : string → option Z).
Context (parse_csv : string → option (list Row)) (to_csv : list Unmatched → string).

Local Abbreviation authenticate' :=
  (authenticate epoch_seconds json_dumps json_loads int_of_text).
Local Abbreviation main' :=
  (main epoch_seconds json_dumps json_loads int_of_text parse_csv to_csv).

Lemma add_songs_to_playlists_acts (w : World R) (song_data : list Row) :
  (add_songs_to_playlists w song_data).1 ≠ w.
Proof.
  destruct (add_songs_to_playlists_trace w song_data) as (events & entries & Hlog & _).
  destruct (add_songs_to_playlists_account w song_data)
    as (events' & _ & Hlog' & _ & _ & Hl & _).
  intros Heq. rewrite Heq in Hlog'.
  rewrite <-(app_nil_r (log w)) in Hlog' at 1. apply app_inv_head in Hlog' as <-.
  discriminate Hl.
Qed.

Lemma report_not_empty (w : World R) (song_data : list Row) :
  (add_songs_to_playlists w song_data).2 ≠ Some [].
Proof.
  destruct (add_songs_to_playlists_trace w song_data)
    as (events & entries & _ & Hreport & _).
  rewrite Hreport. by destruct entries.
Qed.

(** X21. The script touches the account only after a login that passes the
    check and after both library files have been read: whenever the world
    it leaves differs from the one it found, [authenticate] has returned a
    session, the check of that session has passed, the library has loaded,
    and the world is the one the import of that library leaves. *)
Theorem main_acts_only_when_logged_in
    (files : gmap string string) (w w' : World R) (o : outcome (option (list Unmatched))) :
  main' files w = (w', o) →
  w' ≠ w →
  ∃ session files1 song_data,
    authenticate' files = Returns session files1
    ∧ check_login session = true
    ∧ load_library (read_csv_of parse_csv files1) = Some song_data
    ∧ w' = (add_songs_to_playlists w song_data).1.
Proof.
  unfold main. intros Hmain Hacts.
  destruct (authenticate' files) as [session files1|why files1]; [|congruence].
  destruct (check_login session) eqn:Hcheck; [|congruence].
  destruct (load_library (read_csv_of parse_csv files1)) as [song_data|] eqn:Hload;
    [|congruence].
  exists session, files1, song_data. split_and!; try done.
  destruct (add_songs_to_playlists w song_data) as [w2 report]. cbn. congruence.
Qed.

(** X22. The script writes no file but the token file and the report: every
    other file, the two library files among them, is after the run what it
    was before, however the run ends. *)
Theorem main_writes_two_files_at_most (files : gmap string string) (w : World R) (path : string) :
  path ≠ TOKEN_FILE →
  path ≠ NOT_FOUND_FILE →
  files_of (main' files w).2 !! path = files !! path
  ∧ files_of (main' files w).2 !! TIDAL_CSV = files !! TIDAL_CSV
  ∧ files_of (main' files w).2 !! SPOTIFY_CSV = files !! SPOTIFY_CSV.
Proof.
  intros Htoken Hreport.
  assert (Hframe : ∀ p, p ≠ TOKEN_FILE → p ≠ NOT_FOUND_FILE →
                        files_of (main' files w).2 !! p = files !! p).
  { intros p Hp1 Hp2. unfold main.
    pose proof (authenticate_frame epoch_seconds json_dumps json_loads int_of_text
                  files p Hp1) as Hauth.
    destruct (authenticate' files) as [session files1|why files1]; [|done].
    cbn [files_of] in Hauth. destruct (check_login session); [|done].
    destruct (load_library (read_csv_of parse_csv files1)) as [song_data|]; [|done].
    destruct (add_songs_to_playlists w song_data) as [w2 [entries|]]; cbn; [|done].
    by rewrite lookup_insert_ne. }
  split_and!; by apply Hframe.
Qed.

(** X23. A run that writes no report leaves an older report in place: when
    the script returns without unmatched records, or because the login
    check failed, the report file is what it was before the run. *)
Theorem main_keeps_an_old_report (files files' : gmap string string) (w : World R) :
  (main' files w).2 = Returns None files' →
  files' !! NOT_FOUND_FILE = files !! NOT_FOUND_FILE.
Proof.
  unfold main.
  pose proof (authenticate_frame epoch_seconds json_dumps json_loads int_of_text
                files NOT_FOUND_FILE) as Hauth.
  destruct (authenticate' files) as [session files1|why files1]; [|done].
  cbn [files_of] in Hauth. destruct (check_login session).
  - destruct (load_library (read_csv_of parse_csv files1)) as [song_data|]; [|done].
    destruct (add_songs_to_playlists w song_data) as [w2 [entries|]]; [done|].
    cbn. intros [= <-]. by apply Hauth.
  - cbn. intros [= <-]. by apply Hauth.
Qed.

(** X24. When the script writes a report, it has at least one entry, the
    report file holds its text, and the token file is as [authenticate]
    left it. *)
Theorem main_writes_the_report
    (files files' : gmap string string) (w : World R) (entries : list Unmatched) :
  (main' files w).2 = Returns (Some entries) files' →
  entries ≠ []
  ∧ files' !! NOT_FOUND_FILE = Some (to_csv entries)
  ∧ files' !! TOKEN_FILE = files_of (authenticate' files) !! TOKEN_FILE.
Proof.
  unfold main.
  destruct (authenticate' files) as [session files1|why files1]; [|done].
  destruct (check_login session); [|done].
  destruct (load_library (read_csv_of parse_csv files1)) as [song_data|]; [|done].
  pose proof (report_not_empty w song_data) as Hreport.
  destruct (add_songs_to_playlists w song_data) as [w2 [entries'|]]; [|done].
  cbn in *. intros [= <- <-]. split_and!.
  - congruence.
  - apply lookup_insert_eq.
  - by rewrite lookup_insert_ne.
Qed.

(** X25. When a library file is missing, the script fails once the login
    has passed its check, before any call on the account: the world is
    left as it was and no report is written, while the token file is as
    [authenticate] left it. *)
Theorem main_fails_on_a_missing_library
    (files files1 : gmap string string) (w : World R) (session : Sess) :
  authenticate' files = Returns session files1 →
  check_login session = true →
  files !! TIDAL_CSV = None ∨ files !! SPOTIFY_CSV = None →
  main' files w = (w, Crashes ReadRaised files1)
  ∧ files1 !! NOT_FOUND_FILE = files !! NOT_FOUND_FILE.
Proof.
  intros Hauth Hcheck Hmissing.
  pose proof (authenticate_frame epoch_seconds json_dumps json_loads int_of_text files)
    as Hframe.
  rewrite Hauth in Hframe. cbn [files_of] in Hframe.
  split; [|by apply Hframe].
  unfold main. rewrite Hauth, Hcheck.
  assert (Hload : load_library (read_csv_of parse_csv files1) = None).
  { unfold load_library, read_csv_of.
    destruct Hmissing as [Hmiss|Hmiss].
    - rewrite (Hframe TIDAL_CSV) by done. by rewrite Hmiss.
    - rewrite (Hframe SPOTIFY_CSV) by done. rewrite Hmiss.
      by destruct (files1 !! TIDAL_CSV ≫= parse_csv). }
  by rewrite Hload.
Qed.
End ScriptMore.

(** ** Running the import again *)

Section Rerun.
Context `{PyStr} `{Remote R}.

(** The account keeps what it is given: an addition is listed, additions
    and creations take no name off a listing, and neither changes what the
    catalog search finds. *)
Hypothesis add_lists :
  ∀ (r : R) (playlist : Playlist) (query : string) (track : Track),
    first_track (search r query) = Some track →
    lower (tr_name track) ∈ listed_names (playlist_add r playlist [tr_id track]) playlist.
Hypothesis add_keeps :
  ∀ (r : R) (playlist target : Playlist) (track_ids : list Z) (name : string),
    name ∈ listed_names r playlist →
    name ∈ listed_names (playlist_add r target track_ids) playlist.
Hypothesis create_keeps :
  ∀ (r : R) (playlist : Playlist) (created description name : string),
    name ∈ listed_names r playlist →
    name ∈ listed_names (create_playlist r created description).1 playlist.
Hypothesis search_after_add :
  ∀ (r : R) (playlist : Playlist) (track_ids : list Z) (query : string),
    search (playlist_add r playlist track_ids) query = search r query.
Hypothesis search_after_create :
  ∀ (r : R) (created description query : string),
    search (create_playlist r created description).1 query = search r query.

Lemma search_replay (events : list Event) (r : R) (query : string) :
  search (replay events r) query = search r query.
Proof.
  revert r. induction events as [|e events IHevents]; intros r; [done|].
  unfold replay in *. cbn [foldl]. rewrite IHevents. by destruct e.
Qed.

Lemma listed_replay (events : list Event) (r : R) (playlist : Playlist) (name : string) :
  name ∈ listed_names r playlist → name ∈ listed_names (replay events r) playlist.
Proof.
  revert r. induction events as [|e events IHevents]; intros r Hin; [done|].
  unfold replay in *. cbn [foldl]. apply IHevents. destruct e; auto.
Qed.

Lemma state_after_replay (w : World R) (song_data done : list Row) :
  ∃ events, remote (state_after w song_data done).1 = replay events (remote w).
Proof.
  unfold state_after.
  destruct (get_or_create_playlists_replay w (unique (row_playlist <$> song_data)))
    as (ev0 & _ & Hr0 & _).
  destruct (run_rows_account (resolved_playlists w song_data) done
              ((get_or_create_playlists w (unique (row_playlist <$> song_data))).1, []))
    as (ev1 & entries & _ & _ & Hr1 & _).
  exists (ev0 ++ ev1). rewrite Hr1. cbn [fst]. by rewrite Hr0, replay_app.
Qed.

Lemma add_songs_to_playlists_remote (w : World R) (song_data : list Row) :
  remote (add_songs_to_playlists w song_data).1
  = remote (state_after w song_data song_data).1.
Proof.
  rewrite add_songs_to_playlists_unfold.
  by destruct (state_after w song_data song_data).2.
Qed.

(** After a run, the playlist of every record lists the track its search
    finds. *)
Lemma placed_after_run (w : World R) (song_data : list Row) (row : Row)
    (playlist : Playlist) (track : Track) :
  row ∈ song_data →
  resolved_playlists w song_data !! lower (playlist_name_of row) = Some playlist →
  first_track (search (remote (add_songs_to_playlists w song_data).1) (search_query_of row))
    = Some track →
  lower (tr_name track)
  ∈ listed_names (remote (add_songs_to_playlists w song_data).1) playlist.
Proof.
  intros Hrow Hlookup Htrack.
  apply list_elem_of_split in Hrow as (pre & post & Hdata).
  rewrite add_songs_to_playlists_remote in Htrack |- *.
  destruct (state_after_replay w song_data song_data) as (ev_all & Hall).
  destruct (state_after_replay w song_data pre) as (ev_pre & Hpre).
  rewrite Hall, search_replay in Htrack. rewrite <-(search_replay ev_pre), <-Hpre in Htrack.
  replace song_data with ((pre ++ [row]) ++ post) at 2
    by (by rewrite Hdata, <-(assoc_L (++))).
  rewrite state_after_app. apply (listed_after_rows add_keeps).
  rewrite state_after_snoc. by apply (record_lists_its_track add_lists).
Qed.

(** A loop in which every record that reaches a track finds it listed makes
    no add call. *)
Lemma run_rows_settled (playlists : gmap string Playlist) (all rows : list Row)
    (st : World R * list Unmatched) :
  (∀ row playlist track,
      row ∈ all →
      playlists !! lower (playlist_name_of row) = Some playlist →
      first_track (search (remote st.1) (search_query_of row)) = Some track →
      lower (tr_name track) ∈ listed_names (remote st.1) playlist) →
  rows ⊆ all →
  ∃ events,
    log (run_rows playlists st rows).1 = log st.1 ++ events
    ∧ adds events = []
    ∧ remote (run_rows playlists st rows).1 = remote st.1.
Proof.
  revert st. induction rows as [|row rows IHrows]; intros [w not_found_tracks] Hsettled Hsub.
  - exists []. cbn. by rewrite app_nil_r.
  - cbn [run_rows foldl fst] in *.
    assert (Hstep : ∃ events,
      log (process_row playlists (w, not_found_tracks) row).1 = log w ++ events
      ∧ adds events = []
      ∧ remote (process_row playlists (w, not_found_tracks) row).1 = remote w).
    { destruct (playlists !! lower (playlist_name_of row)) as [playlist|] eqn:Hlookup.
      - destruct (first_track (search (remote w) (search_query_of row)))
          as [track|] eqn:Htrack.
        + assert (Hin : lower (tr_name track) ∈ listed_names (remote w) playlist).
          { apply (Hsettled row); [|done..]. apply Hsub. by left. }
          rewrite (process_row_present _ _ _ _ _ _ Hlookup Htrack Hin).
          by eexists.
        + rewrite (process_row_no_track _ _ _ _ _ Hlookup Htrack). by eexists.
      - rewrite (process_row_absent _ _ _ _ Hlookup). by eexists. }
    destruct Hstep as (ev1 & Hlog1 & Ha1 & Hr1).
    destruct (IHrows (process_row playlists (w, not_found_tracks) row))
      as (ev2 & Hlog2 & Ha2 & Hr2).
    + rewrite Hr1. exact Hsettled.
    + intros x Hx. apply Hsub. by right.
    + exists (ev1 ++ ev2). unfold run_rows in *.
      rewrite Hlog2, Hlog1, Hr2, Hr1, adds_app, Ha1, Ha2, (assoc_L (++)). done.
Qed.

(** Which records are reported depends on the mapping and on the search,
    not on what the playlists hold. *)
Lemma run_rows_same_report (playlists : gmap string Playlist) (rows : list Row)
    (st st' : World R * list Unmatched) :
  (∀ query, search (remote st.1) query = search (remote st'.1) query) →
  ∃ entries,
    (run_rows playlists st rows).2 = st.2 ++ entries
    ∧ (run_rows playlists st' rows).2 = st'.2 ++ entries.
Proof.
  revert st st'. induction rows as [|row rows IHrows]; intros st st' Hsearch.
  - exists []. cbn. by rewrite !app_nil_r.
  - cbn [run_rows foldl].
    assert (Hstep : ∃ entries,
      (process_row playlists st row).2 = st.2 ++ entries
      ∧ (process_row playlists st' row).2 = st'.2 ++ entries
      ∧ ∀ query, search (remote (process_row playlists st row).1) query
                 = search (remote (process_row playlists st' row).1) query).
    { destruct st as [w nf], st' as [w' nf']. cbn [fst snd] in *.
      destruct (playlists !! lower (playlist_name_of row)) as [playlist|] eqn:Hlookup.
      - destruct (first_track (search (remote w) (search_query_of row)))
          as [track|] eqn:Htrack.
        + assert (Htrack' : first_track (search (remote w') (search_query_of row))
                            = Some track) by (by rewrite <-Hsearch).
          exists [].
          destruct (decide (lower (tr_name track) ∈ listed_names (remote w) playlist)),
            (decide (lower (tr_name track) ∈ listed_names (remote w') playlist)).
          all: repeat first
            [ rewrite (process_row_present _ w _ _ _ _ Hlookup Htrack) by done
            | rewrite (process_row_added _ w _ _ _ _ Hlookup Htrack) by done
            | rewrite (process_row_present _ w' _ _ _ _ Hlookup Htrack') by done
            | rewrite (process_row_added _ w' _ _ _ _ Hlookup Htrack') by done ].
          all: cbn [fst snd remote]; rewrite !app_nil_r.
          all: split_and!; [done..|].
          all: intros query; rewrite ?search_after_add; apply Hsearch.
        + assert (Htrack' : first_track (search (remote w') (search_query_of row)) = None)
            by (by rewrite <-Hsearch).
          rewrite (process_row_no_track _ w _ _ _ Hlookup Htrack).
          rewrite (process_row_no_track _ w' _ _ _ Hlookup Htrack').
          by eexists.
      - rewrite !(process_row_absent _ _ _ _ Hlookup). by eexists. }
    destruct Hstep as (en1 & Hnf & Hnf' & Hsearch1).
    destruct (IHrows _ _ Hsearch1) as (en2 & Hrest & Hrest').
    exists (en1 ++ en2). unfold run_rows in *.
    by rewrite Hrest, Hrest', Hnf, Hnf', !(assoc_L (++)).
Qed.

(** X26. Running the import a second time over the same frame adds nothing.
    On an account that keeps what it is given, and where the second run
    resolves the playlist names to the playlists of the first, the second
    run makes no add call and reports the same unmatched records as the
    first. *)
Theorem second_run_adds_nothing (w : World R) (song_data : list Row) :
  resolved_playlists (add_songs_to_playlists w song_data).1 song_data
    = resolved_playlists w song_data →
  (∃ events,
      log (add_songs_to_playlists (add_songs_to_playlists w song_data).1 song_data).1
        = log (add_songs_to_playlists w song_data).1 ++ events
      ∧ adds events = [])
  ∧ (add_songs_to_playlists (add_songs_to_playlists w song_data).1 song_data).2
    = (add_songs_to_playlists w song_data).2.
Proof.
  intros Hsame. set (w1 := (add_songs_to_playlists w song_data).1) in *.
  destruct (get_or_create_playlists_spec w1 (unique (row_playlist <$> song_data)))
    as (ev0 & Hlog0 & _ & _ & _ & Ha0 & _).
  destruct (get_or_create_playlists_replay w1 (unique (row_playlist <$> song_data)))
    as (ev0' & Hlog0' & Hr0 & _).
  rewrite Hlog0 in Hlog0'. apply app_inv_head in Hlog0' as <-.
  set (wb := (get_or_create_playlists w1 (unique (row_playlist <$> song_data))).1) in *.
  assert (Hsettled : ∀ row playlist track,
    row ∈ song_data →
    resolved_playlists w1 song_data !! lower (playlist_name_of row) = Some playlist →
    first_track (search (remote wb) (search_query_of row)) = Some track →
    lower (tr_name track) ∈ listed_names (remote wb) playlist).
  { intros row playlist track Hrow Hlookup Htrack.
    rewrite Hr0 in Htrack |- *. rewrite search_replay in Htrack.
    apply listed_replay. rewrite Hsame in Hlookup.
    by apply (placed_after_run w song_data row playlist track). }
  destruct (run_rows_settled (resolved_playlists w1 song_data) song_data song_data (wb, [])
              Hsettled) as (ev1 & Hlog1 & Ha1 & _); [done|].
  split.
  - rewrite add_songs_to_playlists_unfold. unfold state_after. fold wb.
    cbn [fst] in Hlog1.
    destruct (run_rows (resolved_playlists w1 song_data) (wb, []) song_data)
      as [w2 [|e es]]; cbn [fst snd emit log] in *.
    + exists (ev0 ++ ev1 ++ [Printed AllAdded]).
      rewrite Hlog1, Hlog0, !adds_app, Ha0, Ha1, <-!(assoc_L (++)). done.
    + exists (ev0 ++ ev1 ++ [Printed SavedMissing]).
      rewrite Hlog1, Hlog0, !adds_app, Ha0, Ha1, <-!(assoc_L (++)). done.
  - rewrite !add_songs_to_playlists_unfold.
    assert (Hentries : (state_after w1 song_data song_data).2
                       = (state_after w song_data song_data).2).
    { unfold state_after. fold wb. rewrite Hsame.
      destruct (run_rows_same_report (resolved_playlists w song_data) song_data (wb, [])
                  ((get_or_create_playlists w (unique (row_playlist <$> song_data))).1, []))
        as (entries & -> & ->); [|done].
      intros query. cbn [fst]. rewrite Hr0, search_replay.
      unfold w1. rewrite add_songs_to_playlists_remote.
      destruct (state_after_replay w song_data song_data) as (ev_all & ->).
      destruct (get_or_create_playlists_replay w (unique (row_playlist <$> song_data)))
        as (ev_a & _ & -> & _).
      by rewrite !search_replay. }
    rewrite Hentries. by destruct (state_after w song_data song_data).2.
Qed.
End Rerun.

(** ** The further properties on concrete runs *)

Lemma demo_create_keeps (a : Demo.Account) (playlist : Playlist)
    (created description name : string) :
  name ∈ listed_names a playlist →
  name ∈ listed_names (create_playlist a created description).1 playlist.
Proof. done. Qed.

Lemma demo_search_after_add (a : Demo.Account) (playlist : Playlist)
    (track_ids : list Z) (query : string) :
  search (playlist_add a playlist track_ids) query = search a query.
Proof. done. Qed.

Lemma demo_search_after_create (a : Demo.Account) (created description query : string) :
  search (create_playlist a created description).1 query = search a query.
Proof. done. Qed.

Lemma existing_playlist_is_reused_witness :
  (get_or_create_playlists (Demo.start ["Road Trip"; "road trip"]) ["ROAD TRIP"; "Gym"]).2
    !! "road trip"
  = Some {| pl_id := 1; pl_name := "road trip" |}.
Proof.
  refine (proj1 (existing_playlist_is_reused (Demo.start ["Road Trip"; "road trip"])
                   ["ROAD TRIP"; "Gym"] "ROAD TRIP" {| pl_id := 1; pl_name := "road trip" |}
                   _ _)).
  - by_compute.
  - vm_compute. reflexivity.
Defined.

Lemma nothing_created_when_all_exist_witness :
  remote (get_or_create_playlists (Demo.start ["Road Trip"; "Gym"]) ["gym"; "ROAD TRIP"]).1
  = remote (Demo.start ["Road Trip"; "Gym"]).
Proof.
  refine (proj1 (nothing_created_when_all_exist (Demo.start ["Road Trip"; "Gym"])
                   ["gym"; "ROAD TRIP"] _)).
  intros name Hname. rewrite !elem_of_cons, elem_of_nil in Hname.
  destruct Hname as [->|[->|[]]]; by_compute.
Defined.

Lemma unlisted_track_is_added_witness :
  (state_after (Demo.start ["Road Trip"]) Demo.yellow_twice
     [Demo.row "Road Trip" "Yellow" "Coldplay"]).2 = []
  ∧ remote (state_after (Demo.start ["Road Trip"]) Demo.yellow_twice
              [Demo.row "Road Trip" "Yellow" "Coldplay"]).1
    = playlist_add (remote (Demo.start ["Road Trip"])) Demo.road_trip [42%Z].
Proof.
  destruct (unlisted_track_is_added (Demo.start ["Road Trip"]) Demo.yellow_twice
              [] [Demo.row "Road Trip" "yellow" "coldplay"]
              (Demo.row "Road Trip" "Yellow" "Coldplay") Demo.road_trip
              {[ "tracks" := [Demo.yellow] ]} Demo.yellow [])
    as (Hentries & _ & Hremote).
  - reflexivity.
  - vm_compute. reflexivity.
  - vm_compute. reflexivity.
  - reflexivity.
  - vm_compute. intros Hin. inversion Hin.
  - split; [exact Hentries|exact Hremote].
Defined.

Lemma unpadded_playlist_name_is_found_witness :
  is_Some (resolved_playlists (Demo.start []) Demo.padded_and_plain !! "gym").
Proof.
  refine (unpadded_playlist_name_is_found (Demo.start []) Demo.padded_and_plain
           (Demo.row "Gym" "Clocks" "Coldplay") _ _).
  - unfold Demo.padded_and_plain. rewrite !elem_of_cons. right. left. reflexivity.
  - reflexivity.
Defined.

Lemma report_is_never_empty_witness :
  [ {| nf_playlist := "Gym"; nf_track := "Ghost Song"; nf_artist := "" |} ] ≠ []
  ∧ [ {| nf_playlist := "Gym"; nf_track := "Ghost Song"; nf_artist := "" |} ]
    `sublist_of` unmatched_of <$> Demo.ghost_song
  ∧ [ {| nf_playlist := "Gym"; nf_track := "Ghost Song"; nf_artist := "" |} ]
    = (state_after (Demo.start ["Gym"]) Demo.ghost_song Demo.ghost_song).2.
Proof.
  refine (report_is_never_empty (Demo.start ["Gym"]) Demo.ghost_song _ _).
  vm_compute. reflexivity.
Defined.

Lemma authenticate_reuses_valid_token_witness :
  DemoScript.login DemoLogin.valid_files
  = Returns {| DemoLogin.kind := Some "Bearer"; DemoLogin.access := Some "live";
               DemoLogin.refresh := Some "rt-1"; DemoLogin.expiry := Some 1700003600%Z |}
      DemoLogin.valid_files.
Proof.
  refine (authenticate_reuses_valid_token (λ seconds : Z, seconds) FlatJson.dumps
           FlatJson.loads DemoLogin.int_of_text DemoLogin.valid_files
           [ ("token_type", JStr "Bearer"); ("access_token", JStr "live");
             ("refresh_token", JStr "rt-1"); ("expiry_time", JInt 1700003600) ]
           (JStr "Bearer") (JStr "live") (JStr "rt-1") (JInt 1700003600) 1700003600%Z _ _ _ _ _ _ _ _ _).
  - vm_compute. reflexivity.
  - reflexivity.
  - reflexivity.
  - reflexivity.
  - reflexivity.
  - reflexivity.
  - reflexivity.
  - reflexivity.
Defined.

Lemma authenticate_touches_only_the_token_file_witness :
  files_of (DemoScript.login DemoScript.directory) !! TIDAL_CSV
  = DemoScript.directory !! TIDAL_CSV.
Proof.
  refine (authenticate_touches_only_the_token_file (λ seconds : Z, seconds) FlatJson.dumps
           FlatJson.loads DemoLogin.int_of_text DemoScript.directory TIDAL_CSV _).
  vm_compute. discriminate.
Defined.

Lemma authenticate_returns_witness :
  (check_login DemoLogin.fresh = true
   ∧ <[TOKEN_FILE := FlatJson.dumps
                       (token_data_of (λ seconds : Z, seconds)
                          (tokens_of DemoLogin.fresh) 1700086400%Z)]>
       DemoLogin.expired_files
     = DemoLogin.expired_files
   ∧ ∃ doc, load_token FlatJson.loads DemoLogin.expired_files = Ok (Some doc))
  ∨ (∃ before expiry,
       login_oauth_simple before = Some DemoLogin.fresh
       ∧ expiry_time (tokens_of DemoLogin.fresh) = Some expiry
       ∧ <[TOKEN_FILE := FlatJson.dumps
                           (token_data_of (λ seconds : Z, seconds)
                              (tokens_of DemoLogin.fresh) 1700086400%Z)]>
           DemoLogin.expired_files
         = <[TOKEN_FILE := FlatJson.dumps
                             (token_data_of (λ seconds : Z, seconds)
                                (tokens_of DemoLogin.fresh) expiry)]>
             DemoLogin.expired_files).
Proof.
  refine (authenticate_returns (λ seconds : Z, seconds) FlatJson.dumps FlatJson.loads
           DemoLogin.int_of_text DemoLogin.expired_files _ _ _).
  vm_compute. reflexivity.
Defined.


Lemma authenticate_logs_in_on_a_miss_witness :
  DemoScript.login DemoLogin.corrupt_files
  = Returns DemoLogin.fresh
      (<[TOKEN_FILE := FlatJson.dumps
                         (token_data_of (λ seconds : Z, seconds)
                            (tokens_of DemoLogin.fresh) 1700086400%Z)]>
         DemoLogin.corrupt_files).
Proof.
  refine (authenticate_logs_in_on_a_miss (λ seconds : Z, seconds) FlatJson.dumps
           FlatJson.loads DemoLogin.int_of_text DemoLogin.corrupt_files _ _ _ _ _).
  - right. right. eexists. split; [reflexivity|]. vm_compute. reflexivity.
  - reflexivity.
  - reflexivity.
Defined.

Lemma authenticate_gives_up_a_partial_record_witness :
  DemoScript.login DemoScript.partial_files
  = Returns DemoLogin.fresh
      (<[TOKEN_FILE := FlatJson.dumps
                         (token_data_of (λ seconds : Z, seconds)
                            (tokens_of DemoLogin.fresh) 1700086400%Z)]>
         DemoScript.partial_files).
Proof.
  refine (authenticate_gives_up_a_partial_record (λ seconds : Z, seconds) FlatJson.dumps
           FlatJson.loads DemoLogin.int_of_text DemoScript.partial_files
           (JObj [ ("access_token", JStr "live"); ("expiry_time", JInt 1700003600) ]) _ _ _ _ _ _).
  - vm_compute. reflexivity.
  - left. reflexivity.
  - reflexivity.
  - reflexivity.
Defined.

Lemma main_acts_only_when_logged_in_witness :
  ∃ session files1 song_data,
    DemoScript.login DemoScript.directory = Returns session files1
    ∧ check_login session = true
    ∧ load_library (read_csv_of DemoScript.parse_csv files1) = Some song_data
    ∧ (DemoScript.run DemoScript.directory (Demo.start ["Road Trip"])).1
      = (add_songs_to_playlists (Demo.start ["Road Trip"]) song_data).1.
Proof.
  refine (main_acts_only_when_logged_in (λ seconds : Z, seconds) FlatJson.dumps FlatJson.loads
           DemoLogin.int_of_text DemoScript.parse_csv DemoScript.to_csv
           DemoScript.directory (Demo.start ["Road Trip"])
           (DemoScript.run DemoScript.directory (Demo.start ["Road Trip"])).1
           (DemoScript.run DemoScript.directory (Demo.start ["Road Trip"])).2 _ _).
  - exact (surjective_pairing
             (DemoScript.run DemoScript.directory (Demo.start ["Road Trip"]))).
  - intros Heq. apply (f_equal (λ w, length (log w))) in Heq.
    vm_compute in Heq. discriminate.
Defined.

Lemma main_writes_two_files_at_most_witness :
  files_of (DemoScript.run DemoScript.directory (Demo.start ["Road Trip"])).2 !! "notes.txt"
    = DemoScript.directory !! "notes.txt"
  ∧ files_of (DemoScript.run DemoScript.directory (Demo.start ["Road Trip"])).2 !! TIDAL_CSV
    = DemoScript.directory !! TIDAL_CSV
  ∧ files_of (DemoScript.run DemoScript.directory (Demo.start ["Road Trip"])).2 !! SPOTIFY_CSV
    = DemoScript.directory !! SPOTIFY_CSV.
Proof.
  refine (main_writes_two_files_at_most (λ seconds : Z, seconds) FlatJson.dumps FlatJson.loads
           DemoLogin.int_of_text DemoScript.parse_csv DemoScript.to_csv
           DemoScript.directory (Demo.start ["Road Trip"]) "notes.txt" _ _).
  - vm_compute. discriminate.
  - vm_compute. discriminate.
Defined.

Lemma main_keeps_an_old_report_witness :
  DemoScript.directory_all_found !! NOT_FOUND_FILE = Some "an old report"
  ∧ files_of (DemoScript.run DemoScript.directory_all_found (Demo.start ["Road Trip"])).2
      !! NOT_FOUND_FILE
    = DemoScript.directory_all_found !! NOT_FOUND_FILE.
Proof.
  split; [vm_compute; reflexivity|].
  refine (main_keeps_an_old_report (λ seconds : Z, seconds) FlatJson.dumps FlatJson.loads
           DemoLogin.int_of_text DemoScript.parse_csv DemoScript.to_csv
           DemoScript.directory_all_found
           (files_of (DemoScript.run DemoScript.directory_all_found
                        (Demo.start ["Road Trip"])).2)
           (Demo.start ["Road Trip"]) _).
  vm_compute. reflexivity.
Defined.

Lemma main_writes_the_report_witness :
  [ {| nf_playlist := "Gym"; nf_track := "Ghost Song"; nf_artist := "Nobody" |} ] ≠ []
  ∧ files_of (DemoScript.run DemoScript.directory (Demo.start ["Road Trip"])).2
      !! NOT_FOUND_FILE
    = Some (DemoScript.to_csv
              [ {| nf_playlist := "Gym"; nf_track := "Ghost Song"; nf_artist := "Nobody" |} ])
  ∧ files_of (DemoScript.run DemoScript.directory (Demo.start ["Road Trip"])).2
      !! TOKEN_FILE
    = files_of (DemoScript.login DemoScript.directory) !! TOKEN_FILE.
Proof.
  refine (main_writes_the_report (λ seconds : Z, seconds) FlatJson.dumps FlatJson.loads
           DemoLogin.int_of_text DemoScript.parse_csv DemoScript.to_csv
           DemoScript.directory
           (files_of (DemoScript.run DemoScript.directory (Demo.start ["Road Trip"])).2)
           (Demo.start ["Road Trip"]) _ _).
  vm_compute. reflexivity.
Defined.

Lemma main_fails_on_a_missing_library_witness :
  DemoScript.run DemoScript.directory_without_spotify (Demo.start ["Road Trip"])
    = (Demo.start ["Road Trip"], Crashes ReadRaised DemoScript.directory_without_spotify)
  ∧ DemoScript.directory_without_spotify !! NOT_FOUND_FILE
    = DemoScript.directory_without_spotify !! NOT_FOUND_FILE.
Proof.
  refine (main_fails_on_a_missing_library (λ seconds : Z, seconds) FlatJson.dumps
           FlatJson.loads DemoLogin.int_of_text DemoScript.parse_csv DemoScript.to_csv
           DemoScript.directory_without_spotify DemoScript.directory_without_spotify
           (Demo.start ["Road Trip"])
           {| DemoLogin.kind := Some "Bearer"; DemoLogin.access := Some "live";
              DemoLogin.refresh := Some "rt-1"; DemoLogin.expiry := Some 1700003600%Z |} _ _ _).
  - vm_compute. reflexivity.
  - reflexivity.
  - right. vm_compute. reflexivity.
Defined.

Lemma second_run_adds_nothing_witness :
  (∃ events,
      log (add_songs_to_playlists
             (add_songs_to_playlists (Demo.start []) Demo.padded_and_plain).1
             Demo.padded_and_plain).1
        = log (add_songs_to_playlists (Demo.start []) Demo.padded_and_plain).1 ++ events
      ∧ adds events = [])
  ∧ (add_songs_to_playlists
       (add_songs_to_playlists (Demo.start []) Demo.padded_and_plain).1
       Demo.padded_and_plain).2
    = (add_songs_to_playlists (Demo.start []) Demo.padded_and_plain).2.
Proof.
  refine (second_run_adds_nothing demo_add_lists demo_add_keeps demo_create_keeps
           demo_search_after_add demo_search_after_create
           (Demo.start []) Demo.padded_and_plain _).
  vm_compute. reflexivity.
Defined.

(** A first and a second run over two exports. *)
Example second_run_demo :
  adds (log (add_songs_to_playlists (Demo.start ["Road Trip"])
               (Demo.tidal_rows ++ Demo.ghost_song)).1)
    = [ (Demo.road_trip, [42%Z]); ({| pl_id := 1; pl_name := "Gym" |}, [7%Z]) ]
  ∧ adds (log (add_songs_to_playlists
                 ({| remote := remote (add_songs_to_playlists (Demo.start ["Road Trip"])
                                         (Demo.tidal_rows ++ Demo.ghost_song)).1;
                     log := [] |})
                 (Demo.tidal_rows ++ Demo.ghost_song)).1)
    = [].
Proof. split; vm_compute; reflexivity. Qed.
